(** * os.layer.preset.LayerPresetManager

    A shallow embedding of src/os/layer/preset/layerpresetmanager.js.

    The manager keeps two JS objects used as maps ([presets_], [requested_])
    and talks to the outside through promises.  Promises are modelled by an
    explicit store indexed by allocation order, a list of callbacks waiting on
    pending promises, and a FIFO queue of scheduled callbacks; the closures of
    the source are defunctionalised into the [callback] type, one constructor
    per function literal.

    The objects used as maps are plain [{}] objects, so a lookup that finds no
    property of the object itself goes on to Object.prototype: a [gmap] holds
    the own properties, and [inherited] tells which names the prototype
    answers.  The four lookups of the source ([this.presets_[k]],
    [this.requested_[url]], [applied[id]], [presets[filterKey]]) are the
    functions [cache], [is_requested], [is_applied] and [stored_presets].

    Collaborators that are not in this file (the request, the feature-action
    loader, the settings store, the map container, the command, the logger)
    appear as what the manager sees of them: promises it did not make,
    fields of the state it reads, and logs of what it asked for. *)

From Stdlib Require Import PrimFloat.
From stdpp Require Import base strings gmap list.

Set Warnings "-register-all".

(** ** Values *)

(** osx.layer.Preset: an opaque record except for its [default] flag. *)
Record Preset := mkPreset {
  preset_id : string;
  preset_label : string;
  preset_default : bool
}.

(** The JS values that flow through the manager: what JSON.parse can yield
    (null, booleans, numbers, strings, arrays, objects), Error objects,
    preset records, and the members of Object.prototype, which reach the
    manager through lookups by name. *)
Inductive jsval :=
| VUndefined
| VNull
| VBool (b : bool)
| VNumber (x : float)
| VString (s : string)
| VError (message : string)
| VPreset (p : Preset)
| VObject (fields : list (string * jsval))
| VArray (items : list jsval)
| VMember (name : string).

(** ToBoolean. *)
Definition truthy (v : jsval) : bool :=
  match v with
  | VUndefined | VNull => false
  | VBool b => b
  | VNumber x => negb (PrimFloat.is_zero x || PrimFloat.is_nan x)
  | VString s => negb (String.eqb s "")
  | VError _ | VPreset _ | VObject _ | VArray _ | VMember _ => true
  end.

(** Array.prototype.concat with one argument: an array argument is spread,
    anything else is appended as one element. *)
Definition concat (items : list jsval) (arg : jsval) : list jsval :=
  match arg with
  | VArray more => items ++ more
  | v => items ++ [v]
  end.

(** Whether a value has a [concat] method: arrays and strings do. *)
Definition has_concat (v : jsval) : bool :=
  match v with
  | VArray _ | VString _ => true
  | _ => false
  end.

(** How a function call completes. *)
Inductive completion :=
| Return (v : jsval)
| Throw (e : jsval).

(** The TypeError of a call of something that is not a function.  The
    wording of the message is the engine's; this is V8's. *)
Definition TypeError_not_a_function (callee : string) : jsval :=
  VError (callee +:+ " is not a function").

(** ** Object.prototype *)

(** The members that every plain object inherits, each with the value of its
    [length] property: the arity of a function, and nothing for [__proto__],
    which yields Object.prototype itself.  All of them are truthy, and none
    has a [then] or a [concat]. *)
Definition Object_prototype : list (string * option nat) :=
  [("constructor", Some 1); ("__defineGetter__", Some 2); ("__defineSetter__", Some 2);
   ("hasOwnProperty", Some 1); ("__lookupGetter__", Some 1); ("__lookupSetter__", Some 1);
   ("isPrototypeOf", Some 1); ("propertyIsEnumerable", Some 1); ("toString", Some 0);
   ("valueOf", Some 0); ("__proto__", None); ("toLocaleString", Some 0)].

Definition member_length (name : string) : option (option nat) :=
  snd <$> List.find (λ m, String.eqb m.1 name) Object_prototype.

(** Whether [obj[name]] finds something for an object without own property
    [name]. *)
Definition inherited (name : string) : bool :=
  match member_length name with
  | Some _ => true
  | None => false
  end.

(** Whether [obj[name].length] is truthy for an inherited member. *)
Definition member_has_length (name : string) : bool :=
  match member_length name with
  | Some (Some n) => negb (Nat.eqb n 0)
  | _ => false
  end.

(** ** Promises *)

Inductive status :=
| Pending
| Fulfilled (v : jsval)
| Rejected (reason : jsval).

(** Who settles a promise: the network ([os.net.Request.getPromise]), the
    feature-action loader ([ImportActionManager.loadDefaults]), or the
    manager's own callbacks. *)
Inductive origin :=
| Request (url : string)
| Loader (id : string)
| Chained.

Record promise := mkPromise {
  origin_of : origin;
  status_of : status
}.

Inductive settlement :=
| Resolve (v : jsval)
| Reject (reason : jsval).

Definition settled (o : settlement) : status :=
  match o with
  | Resolve v => Fulfilled v
  | Reject r => Rejected r
  end.

Definition of_completion (c : completion) : settlement :=
  match c with
  | Return v => Resolve v
  | Throw e => Reject e
  end.

(** The value of the local [layerPresets] of initPreset: an array of the
    settings, or the member of Object.prototype that the lookup on line 141
    found. *)
Inductive layer_value :=
| Stored (presets : list Preset)
| Inherited (name : string).

Definition as_value (v : layer_value) : jsval :=
  match v with
  | Stored l => VArray (VPreset <$> l)
  | Inherited name => VMember name
  end.

(** The function literals of the source, with their captured variables.  The
    last argument is the promise the callback settles: the promise returned by
    [then], or for [InitDone] the promise whose [resolve] the callback calls. *)
Inductive callback :=
| LoadFirst (child : nat)                                        (* lines 81-84 *)
| MergeOuter (type url : string) (child : nat)                   (* lines 66-78 *)
| MergeInner (type : string) (originalPresets : jsval) (newPromise : nat)
                                                                  (* lines 67-77 *)
| InitDone (id : string) (opt_applyDefault : bool)
           (layerPresets : layer_value) (promise : nat).         (* lines 152-158 *)

Definition target (cb : callback) : nat :=
  match cb with
  | LoadFirst child => child
  | MergeOuter _ _ child => child
  | MergeInner _ _ newPromise => newPromise
  | InitDone _ _ _ promise => promise
  end.

(** ** The world around the manager *)

(** A layer of the map container: whether it implements os.filter.IFilterable
    and what getFilterKey() returns ([None] is null). *)
Record Layer := mkLayer {
  implements_IFilterable : bool;
  getFilterKey : option string
}.

(** Modelled from the spec: os.settings is not in this file; the spec gives
    it get(key, default) / set(key, value) semantics.  The record holds the
    own properties of the two objects the manager reads ([None] is a key
    never set, for which [get] returns its default [{}]) and counts the calls
    of [set].  [get] is taken to return a value, not a reference into the
    store, and the stored objects are plain objects like the default. *)
Record Settings := mkSettings {
  PRESETS : option (gmap string (list Preset));
  APPLIED_DEFAULTS : option (gmap string bool);
  set_calls : nat
}.

(** The manager and its surroundings.
    - [presets_], [requested_]: the own properties of the two fields of the
      manager;
    - [promises], [waiting], [jobs]: the promise store, the callbacks attached
      to pending promises, and the callbacks scheduled to run, oldest first;
    - [settings], [layers]: os.settings and os.map.mapContainer;
    - [logged]: the messages given to goog.log.error;
    - [executed]: the commands run by [cmd.execute()], as layer id and preset;
    - [constructed]: a history of the futures made for a key (lines 67, 81
      and 149), kept to state which future is the newest. *)
Record state := mkState {
  presets_ : gmap string nat;
  requested_ : gmap string bool;
  promises : list promise;
  waiting : list (nat * callback);
  jobs : list (callback * settlement);
  settings : Settings;
  layers : gmap string Layer;
  logged : list string;
  executed : list (string * Preset);
  constructed : list (string * nat)
}.

(** A manager right after its constructor (lines 22-38), in a world with the
    given settings and layers. *)
Definition fresh (st : Settings) (ly : gmap string Layer) : state :=
  mkState ∅ ∅ [] [] [] st ly [] [] [].

(** The new manager of a world with no settings and no layers. *)
Definition init : state :=
  mkState ∅ ∅ [] [] [] (mkSettings None None 0) ∅ [] [] [].

Definition with_presets_ (f : gmap string nat → gmap string nat) (s : state) : state :=
  mkState (f (presets_ s)) (requested_ s) (promises s) (waiting s) (jobs s)
          (settings s) (layers s) (logged s) (executed s) (constructed s).

Definition with_requested_ (f : gmap string bool → gmap string bool) (s : state) : state :=
  mkState (presets_ s) (f (requested_ s)) (promises s) (waiting s) (jobs s)
          (settings s) (layers s) (logged s) (executed s) (constructed s).

Definition with_promises (f : list promise → list promise) (s : state) : state :=
  mkState (presets_ s) (requested_ s) (f (promises s)) (waiting s) (jobs s)
          (settings s) (layers s) (logged s) (executed s) (constructed s).

Definition with_waiting (f : list (nat * callback) → list (nat * callback)) (s : state) : state :=
  mkState (presets_ s) (requested_ s) (promises s) (f (waiting s)) (jobs s)
          (settings s) (layers s) (logged s) (executed s) (constructed s).

Definition with_jobs (f : list (callback * settlement) → list (callback * settlement))
    (s : state) : state :=
  mkState (presets_ s) (requested_ s) (promises s) (waiting s) (f (jobs s))
          (settings s) (layers s) (logged s) (executed s) (constructed s).

Definition with_settings (f : Settings → Settings) (s : state) : state :=
  mkState (presets_ s) (requested_ s) (promises s) (waiting s) (jobs s)
          (f (settings s)) (layers s) (logged s) (executed s) (constructed s).

Definition with_logged (f : list string → list string) (s : state) : state :=
  mkState (presets_ s) (requested_ s) (promises s) (waiting s) (jobs s)
          (settings s) (layers s) (f (logged s)) (executed s) (constructed s).

Definition with_executed (f : list (string * Preset) → list (string * Preset))
    (s : state) : state :=
  mkState (presets_ s) (requested_ s) (promises s) (waiting s) (jobs s)
          (settings s) (layers s) (logged s) (f (executed s)) (constructed s).

Definition with_constructed (f : list (string * nat) → list (string * nat))
    (s : state) : state :=
  mkState (presets_ s) (requested_ s) (promises s) (waiting s) (jobs s)
          (settings s) (layers s) (logged s) (executed s) (f (constructed s)).

(** ** The promise runtime *)

Definition status_at (p : nat) (s : state) : status :=
  match promises s !! p with
  | Some pr => status_of pr
  | None => Pending
  end.

(** A new pending promise; its handle is its index in the store. *)
Definition alloc (o : origin) (s : state) : state :=
  with_promises (λ ps, ps ++ [mkPromise o Pending]) s.

Definition new_promise (o : origin) (s : state) : nat * state :=
  (length (promises s), alloc o s).

(** The callbacks waiting on [p], paired with the outcome they will see, and
    the callbacks still waiting on other promises. *)
Fixpoint release (p : nat) (o : settlement) (ws : list (nat * callback))
    : list (callback * settlement) * list (nat * callback) :=
  match ws with
  | [] => ([], [])
  | (q, cb) :: ws' =>
      let '(ready, rest) := release p o ws' in
      if Nat.eqb q p then ((cb, o) :: ready, rest) else (ready, (q, cb) :: rest)
  end.

(** Settling a pending promise schedules its callbacks; settling a settled
    promise does nothing. *)
Definition settle (p : nat) (o : settlement) (s : state) : state :=
  match promises s !! p with
  | Some (mkPromise src Pending) =>
      let '(ready, rest) := release p o (waiting s) in
      mkState (presets_ s) (requested_ s)
              (<[p := mkPromise src (settled o)]> (promises s))
              rest (jobs s ++ ready)
              (settings s) (layers s) (logged s) (executed s) (constructed s)
  | _ => s
  end.

(** Attaching a callback: it waits while the promise is pending and is
    scheduled at once when the promise has settled. *)
Definition subscribe (p : nat) (cb : callback) (s : state) : state :=
  match status_at p s with
  | Pending => with_waiting (λ ws, ws ++ [(p, cb)]) s
  | Fulfilled v => with_jobs (λ js, js ++ [(cb, Resolve v)]) s
  | Rejected r => with_jobs (λ js, js ++ [(cb, Reject r)]) s
  end.

(** ** The manager *)

(** What [this.presets_[key]] evaluates to: undefined (or another falsy
    value), a future the manager stored, or something truthy that the
    prototype chain answers. *)
Inductive cached :=
| NoEntry
| Future (p : nat)
| Member (name : string).

(** Whether [this.requested_[url]] is truthy. *)
Definition is_requested (url : string) (s : state) : bool :=
  match requested_ s !! url with
  | Some b => b
  | None => inherited url
  end.

(** handleLoadError, lines 95-104. *)
Definition handleLoadError (reason : jsval) (s : state) : completion * state :=
  let msg :=
    match reason with
    | VString str => str
    | VError message => message
    | _ => "Unspecified error."
    end in
  (Return VUndefined,
   with_logged (λ l, l ++ ["Failed to load presets. Reason: " +:+ msg]) s).

(** The argument of applyDefaults: an array of presets, or something
    [Array.isArray] rejects. *)
Inductive presets_arg :=
| NotArray
| IsArray (presets : list Preset).

Definition as_presets_arg (v : layer_value) : presets_arg :=
  match v with
  | Stored l => IsArray l
  | Inherited _ => NotArray
  end.

Definition applied_defaults (s : state) : gmap string bool :=
  default ∅ (APPLIED_DEFAULTS (settings s)).

(** Whether [applied[id]] is truthy. *)
Definition is_applied (id : string) (s : state) : bool :=
  match applied_defaults s !! id with
  | Some b => b
  | None => inherited id
  end.

(** applyDefaults, lines 172-189. *)
Definition applyDefaults (id : string) (presets : presets_arg) (s : state) : state :=
  let applied := applied_defaults s in
  match presets with
  | IsArray l =>
      if negb (Nat.eqb (length l) 0) && negb (is_applied id s) then
        let s :=
          match find preset_default l with
          | Some preset => with_executed (λ cs, cs ++ [(id, preset)]) s
          | None => s
          end in
        with_settings (λ st, mkSettings (PRESETS st) (Some (<[id := true]> applied))
                                        (S (set_calls st))) s
      else s
  | NotArray => s
  end.

(** The value of the local [filterKey] of initPreset. *)
Inductive filter_key :=
| KeyUndefined
| KeyNull
| KeyString (k : string).

(** The property name a key stands for in [presets[filterKey]]. *)
Definition property_name (k : filter_key) : string :=
  match k with
  | KeyUndefined => "undefined"
  | KeyNull => "null"
  | KeyString k => k
  end.

Definition filterKey_of (id : string) (s : state) : filter_key :=
  match layers s !! id with
  | Some layer =>
      if implements_IFilterable layer then
        match getFilterKey layer with
        | Some k => KeyString k
        | None => KeyNull
        end
      else KeyUndefined
  | None => KeyUndefined
  end.

(** [presets[filterKey] || []], lines 139-141: a stored array, empty or not,
    is truthy; so is an inherited member; otherwise the new empty array. *)
Definition stored_presets (id : string) (s : state) : layer_value :=
  let presets := default ∅ (PRESETS (settings s)) in
  let name := property_name (filterKey_of id s) in
  match presets !! name with
  | Some l => Stored l
  | None => if inherited name then Inherited name else Stored []
  end.

(** [layerPresets.length] as a condition, line 143. *)
Definition has_length (v : layer_value) : bool :=
  match v with
  | Stored l => negb (Nat.eqb (length l) 0)
  | Inherited name => member_has_length name
  end.

(** ** Sample data for the examples *)

Definition preset_a : Preset := mkPreset "a" "A" false.
Definition preset_b : Preset := mkPreset "b" "B" true.
Definition sample_default : Preset := mkPreset "__default__" "Default" false.

(** A decoder that agrees with JSON.parse on the bodies the examples use; any
    other body is taken as malformed. *)
Definition sample_parse (v : jsval) : completion :=
  match v with
  | VString "[a]" => Return (VArray [VPreset preset_a])
  | VString "[b]" => Return (VArray [VPreset preset_b])
  | VString "[]" => Return (VArray [])
  | VString "null" => Return VNull
  | VString "7" => Return (VNumber 7%float)
  | VString "{}" => Return (VObject [])
  | _ => Throw (VError "Unexpected token")
  end.

(** A string conversion that agrees with ToString on the values the examples
    use. *)
Definition sample_ToString (v : jsval) : string :=
  match v with
  | VString str => str
  | VUndefined => "undefined"
  | VNull => "null"
  | VBool true => "true"
  | VBool false => "false"
  | VArray [] => ""
  | _ => "[object Object]"
  end.

(** An addDefault that throws a TypeError on anything but an array. *)
Definition sample_addDefault_fails (name : string) : option jsval :=
  Some (VError "presets.push is not a function").

(** A goog.Promise that answers no name with something truthy. *)
Definition sample_promise_answers (s : state) (name : string) : bool := false.

(** A manager whose settings hold a preset list under the name "undefined",
    and whose map has no layers. *)
Definition undefined_key_state : state :=
  mkState ∅ ∅ [] [] []
          (mkSettings (Some {["undefined" := [preset_a]]}) None 0) ∅ [] [] [].



(** The future most recently constructed for [key]. *)
Definition newest (key : string) (s : state) : option nat :=
  last (snd <$> List.filter (λ c, String.eqb c.1 key) (constructed s)).

(** Whether a promise is the promise of a request for [url]. *)
Definition requests (url : string) (o : origin) : bool :=
  match o with
  | Request u => String.eqb u url
  | _ => false
  end.

(** How many requests for [url] have been issued. *)
Definition fetches (url : string) (s : state) : nat :=
  length (List.filter (requests url) (origin_of <$> promises s)).

(** Whether a callback will issue a request for [url] when it runs. *)
Definition will_request (url : string) (cb : callback) : bool :=
  match cb with
  | MergeOuter _ u _ => String.eqb u url
  | _ => false
  end.

(** How many callbacks, waiting or scheduled, may still issue a request for
    [url]. *)
Definition owed (url : string) (s : state) : nat :=
  length (List.filter (will_request url) (snd <$> waiting s)) +
  length (List.filter (will_request url) (fst <$> jobs s)).

(** How often [id] occurs among the executed commands. *)
Definition times_executed (id : string) (s : state) : nat :=
  length (List.filter (λ c, String.eqb c.1 id) (executed s)).

Section Manager.

(** JSON.parse, a builtin: it returns a value or throws a SyntaxError. *)
Variable JSON_parse : jsval → completion.

(** ToString, a builtin, on the values a settled future can hold. *)
Variable ToString : jsval → string.

(** The record that restores a layer to its default settings. *)
Variable restore_default : Preset.

(** What os.layer.preset.addDefault throws, if anything, when it is handed a
    member of Object.prototype instead of an array: neither this file nor the
    spec says. *)
Variable addDefault_fails : string → option jsval.

(** What the prototype of [presets_] answers once a promise has taken the
    place of Object.prototype.  A direct call initPreset("__proto__") does
    that: line 161 then assigns to [__proto__], which adds no property but
    makes the new promise the prototype of [presets_]; reading [__proto__]
    gives that promise back, so the map records it under that name.  A lookup
    that finds no own property then goes on to the promise, to
    goog.Promise.prototype and to Object.prototype.  Whether a goog.Promise
    answers a name with something truthy is for goog.Promise to say, and may
    depend on what has happened to it.  What it answers is taken not to be a
    promise itself, so that it has no [then]. *)
Variable promise_answers : state → string → bool.

(** [this.presets_[key]], lines 58, 115 and 119. *)
Definition cache (key : string) (s : state) : cached :=
  match presets_ s !! key with
  | Some p => Future p
  | None =>
      if inherited key then Member key
      else
        match presets_ s !! "__proto__" with
        | Some _ => if promise_answers s key then Member key else NoEntry
        | None => NoEntry
        end
  end.

(** registerPreset, lines 57-87.  The request is issued by
    [request.getPromise()]: at once when the type has no promise yet, and
    inside the outer callback otherwise.  When [promise] is something the
    prototype chain answered, it is truthy but has no [then], so line 66
    throws after line 61 has marked the URL. *)
Definition registerPreset (type url : string) (s : state) : completion * state :=
  let promise := cache type s in
  if negb (is_requested url s) then
    let s := with_requested_ (λ m, <[url := true]> m) s in
    match promise with
    | Future p =>
        let '(child, s) := new_promise Chained s in
        (Return VUndefined, subscribe p (MergeOuter type url child) s)
    | Member _ =>
        (Throw (TypeError_not_a_function "promise.then"), s)
    | NoEntry =>
        let '(request, s) := new_promise (Request url) s in
        let '(child, s) := new_promise Chained s in
        let s := subscribe request (LoadFirst child) s in
        let s := with_constructed (λ l, l ++ [(type, child)]) s in
        (Return VUndefined, with_presets_ (λ m, <[type := child]> m) s)
    end
  else (Return VUndefined, s).

(** Modelled from the spec: os.layer.preset.addDefault is not in this file;
    the spec says it appends a synthetic restore-to-default record. *)
Definition addDefault (presets : list Preset) : list Preset :=
  presets ++ [restore_default].

(** The local [layerPresets] of initPreset once line 147 is passed. *)
Definition layerPresets_of (id : string) (s : state) : layer_value :=
  match stored_presets id s with
  | Stored layerPresets =>
      if has_length (Stored layerPresets) then Stored (addDefault layerPresets)
      else Stored layerPresets
  | Inherited name => Inherited name
  end.

(** What line 146 throws, if anything. *)
Definition addDefault_throws (id : string) (s : state) : option jsval :=
  match stored_presets id s with
  | Stored _ => None
  | Inherited name => if has_length (Inherited name) then addDefault_fails name else None
  end.

(** Lines 149-161 of initPreset.  The resolver runs inside the constructor,
    so the loader is asked for its promise right after [promise] exists. *)
Definition construct (id : string) (opt_applyDefault : bool) (s : state) : state :=
  let layerPresets := layerPresets_of id s in
  let '(promise, s) := new_promise Chained s in
  let '(faPromise, s) := new_promise (Loader id) s in
  let s := subscribe faPromise (InitDone id opt_applyDefault layerPresets promise) s in
  let s := with_constructed (λ l, l ++ [(id, promise)]) s in
  with_presets_ (λ m, <[id := promise]> m) s.

(** initPreset, lines 131-162. *)
Definition initPreset (id : string) (opt_applyDefault : bool) (s : state)
    : completion * state :=
  match addDefault_throws id s with
  | Some e => (Throw e, s)
  | None => (Return VUndefined, construct id opt_applyDefault s)
  end.

(** What a call of getPresets gives its caller. *)
Inductive outcome :=
| Gives (entry : cached)
| Raises (e : jsval).

(** getPresets, lines 114-120. *)
Definition getPresets (id : string) (opt_applyDefault : bool) (s : state)
    : outcome * state :=
  match cache id s with
  | NoEntry =>
      match initPreset id opt_applyDefault s with
      | (Return _, s) => (Gives (cache id s), s)
      | (Throw e, s) => (Raises e, s)
      end
  | entry => (Gives entry, s)
  end.

(** Lines 70-72: [presets.concat] is Array.prototype.concat on an array and
    String.prototype.concat on a string; a number, a boolean and an object
    have no [concat], and the call throws. *)
Definition merge (presets originalPresets : jsval) : completion :=
  if truthy presets && truthy originalPresets then
    match presets with
    | VArray items => Return (VArray (concat items originalPresets))
    | VString str => Return (VString (str +:+ ToString originalPresets))
    | _ => Throw (TypeError_not_a_function "presets.concat")
    end
  else Return presets.

(** What a callback does when it is called with the outcome of the promise it
    was attached to.  [then(f, this.handleLoadError)] calls [f] on success and
    the handler on failure; [thenAlways(f)] calls [f] either way. *)
Definition body (cb : callback) (o : settlement) (s : state) : completion * state :=
  match cb, o with
  | LoadFirst _, Resolve result =>
      (JSON_parse result, s)
  | MergeOuter type url _, Resolve originalPresets =>
      let '(request, s) := new_promise (Request url) s in
      let '(newPromise, s) := new_promise Chained s in
      let s := subscribe request (MergeInner type originalPresets newPromise) s in
      let s := with_constructed (λ l, l ++ [(type, newPromise)]) s in
      (Return VUndefined, s)
  | MergeInner type originalPresets newPromise, Resolve result =>
      match JSON_parse result with
      | Throw e => (Throw e, s)
      | Return presets =>
          match merge presets originalPresets with
          | Throw e => (Throw e, s)
          | Return presets =>
              (Return presets, with_presets_ (λ m, <[type := newPromise]> m) s)
          end
      end
  | (LoadFirst _ | MergeOuter _ _ _ | MergeInner _ _ _), Reject reason =>
      handleLoadError reason s
  | InitDone id opt_applyDefault layerPresets _, _ =>
      let s :=
        if opt_applyDefault then applyDefaults id (as_presets_arg layerPresets) s
        else s in
      (Return (as_value layerPresets), s)
  end.

Definition run_job (cb : callback) (o : settlement) (s : state) : state :=
  let '(c, s) := body cb o s in
  settle (target cb) (of_completion c) s.

(** ** Runs *)

(** What can happen to a manager: calls of its methods, the outside settling
    a request or a loader promise, and the scheduler running the next
    callback. *)
Inductive event :=
| CallRegisterPreset (type url : string)
| CallGetPresets (id : string) (opt_applyDefault : bool)
| CallInitPreset (id : string) (opt_applyDefault : bool)
| CallApplyDefaults (id : string) (presets : presets_arg)
| Deliver (p : nat) (o : settlement)
| Tick.

(** Modelled from the spec: os.net.Request and
    ImportActionManager.loadDefaults are not in this file; the spec gives the
    first as a future that yields raw text or fails, and the second as a
    future that completes with success or failure.  Only their promises can
    be settled from outside. *)
Definition deliver (p : nat) (o : settlement) (s : state) : state :=
  match promises s !! p with
  | Some (mkPromise (Request _ | Loader _) _) => settle p o s
  | _ => s
  end.

Definition tick (s : state) : state :=
  match jobs s with
  | [] => s
  | (cb, o) :: rest => run_job cb o (with_jobs (λ _, rest) s)
  end.

(** A call that throws leaves the state as the call left it. *)
Definition step (e : event) (s : state) : state :=
  match e with
  | CallRegisterPreset type url => (registerPreset type url s).2
  | CallGetPresets id opt => (getPresets id opt s).2
  | CallInitPreset id opt => (initPreset id opt s).2
  | CallApplyDefaults id presets => applyDefaults id presets s
  | Deliver p o => deliver p o s
  | Tick => tick s
  end.

Definition run (evs : list event) (s : state) : state :=
  foldl (λ s e, step e s) s evs.

(** ** Predicates used by the statements *)

(** Everything of a state but the promise store and the two callback lists. *)
Definition same_manager (s s' : state) : Prop :=
  presets_ s' = presets_ s ∧ requested_ s' = requested_ s ∧
  settings s' = settings s ∧ layers s' = layers s ∧ logged s' = logged s ∧
  executed s' = executed s ∧ constructed s' = constructed s.

(** The part of a state that applyDefaults reads and writes, and the layers. *)
Definition same_store (s s' : state) : Prop :=
  settings s' = settings s ∧ executed s' = executed s ∧ layers s' = layers s.

(** One command is still allowed for [id] while it is not marked applied. *)
Definition credit (id : string) (s : state) : nat :=
  if is_applied id s then 0 else 1.

(** The applied-defaults set only grows, and a command for [id] uses up the
    credit of [id]. *)
Definition store_advance (s s' : state) : Prop :=
  ∀ id, (is_applied id s = true → is_applied id s' = true) ∧
        times_executed id s' + credit id s' ≤ times_executed id s + credit id s.

(** The promises that the waiting and the scheduled callbacks will settle. *)
Definition targets (s : state) : list nat :=
  (target ∘ snd <$> waiting s) ++ (target ∘ fst <$> jobs s).

(** Every callback settles a pending promise of the manager's own, and no two
    callbacks settle the same one. *)
Definition wf (s : state) : Prop :=
  NoDup (targets s) ∧
  ∀ c, c ∈ targets s → promises s !! c = Some (mkPromise Chained Pending).

(** The stages of the promise [p] that initPreset made for [id], whose loader
    promise is [S p]: the callback waits for the loader; the loader is done
    and the callback is scheduled; the callback has run and [p] is fulfilled
    with the layer's presets. *)
Definition init_stage (id : string) (opt : bool) (l : layer_value) (p : nat)
    (s : state) : Prop :=
  (∃ st, promises s !! S p = Some (mkPromise (Loader id) st)) ∧
  ((status_at (S p) s = Pending ∧ (S p, InitDone id opt l p) ∈ waiting s) ∨
   (status_at (S p) s ≠ Pending ∧ ∃ o, (InitDone id opt l p, o) ∈ jobs s) ∨
   (status_at (S p) s ≠ Pending ∧
    status_at p s = Fulfilled (as_value l))).

(** Callbacks wait on promises of the store, and the cache holds promises of
    the store. *)
Definition valid (s : state) : Prop :=
  (∀ q cb, (q, cb) ∈ waiting s → q < length (promises s)) ∧
  (∀ t p, presets_ s !! t = Some p → p < length (promises s)).

(** The part of a state that decides how the manager and its promises go on. *)
Definition runtime (s : state) :
    gmap string nat * gmap string bool * list promise *
    list (nat * callback) * list (callback * settlement) :=
  (presets_ s, requested_ s, promises s, waiting s, jobs s).

(** What holds between a state and a later one when no promise was settled
    in between: promises, waiting callbacks and scheduled callbacks are all
    still there. *)
Definition keeps (s s' : state) : Prop :=
  (∀ q pr, promises s !! q = Some pr → promises s' !! q = Some pr) ∧
  (∀ w, w ∈ waiting s → w ∈ waiting s') ∧
  (∃ more, jobs s' = jobs s ++ more).

(** The outcomes that count as a failed load for a callback of registerPreset:
    the promise it waited for was rejected, the body it was given does not
    parse, or the merge of line 71 throws. *)
Definition load_failure (cb : callback) (o : settlement) : Prop :=
  match cb, o with
  | InitDone _ _ _ _, _ => False
  | _, Reject _ => True
  | LoadFirst _, Resolve result => ∃ e, JSON_parse result = Throw e
  | MergeInner _ originalPresets _, Resolve result =>
      (∃ e, JSON_parse result = Throw e) ∨
      (∃ presets e, JSON_parse result = Return presets ∧
                    merge presets originalPresets = Throw e)
  | MergeOuter _ _ _, Resolve _ => False
  end.

Definition of_registerPreset (cb : callback) : Prop :=
  match cb with
  | InitDone _ _ _ _ => False
  | _ => True
  end.

(** Whether an event asks for the default preset to be applied. *)
Definition asks_default (e : event) : bool :=
  match e with
  | CallApplyDefaults _ _ => true
  | CallGetPresets _ opt | CallInitPreset _ opt => opt
  | _ => false
  end.

(** Whether a callback will call applyDefaults when it runs. *)
Definition applies_default (cb : callback) : bool :=
  match cb with
  | InitDone _ opt _ _ => opt
  | _ => false
  end.

(** No callback, waiting or scheduled, will call applyDefaults. *)
Definition no_default_pending (s : state) : Prop :=
  Forall (λ w, applies_default w.2 = false) (waiting s) ∧
  Forall (λ j, applies_default j.1 = false) (jobs s).

(** A URL not marked requested has no request, issued or to come; a URL
    marked requested has at most one. *)
Definition single_flight (url : string) (s : state) : Prop :=
  fetches url s + owed url s ≤ (if is_requested url s then 1 else 0).

(** Whether running an event calls the error handler. *)
Definition calls_handler (e : event) (s : state) : bool :=
  match e, jobs s with
  | Tick, ((LoadFirst _ | MergeOuter _ _ _ | MergeInner _ _ _), Reject _) :: _ => true
  | _, _ => false
  end.

(** The steps that store a future for [key] in the cache: a call of
    registerPreset that finds no promise for the key and a URL not yet
    requested, a call of getPresets that finds no promise, a direct call of
    initPreset, and the success callback of a later request on a body that
    parses and merges. *)
Definition stores (e : event) (key : string) (s : state) : Prop :=
  match e with
  | CallRegisterPreset type url =>
      type = key ∧ cache key s = NoEntry ∧ is_requested url s = false
  | CallGetPresets id _ => id = key ∧ cache key s = NoEntry
  | CallInitPreset id _ => id = key
  | Tick =>
      ∃ orig n result rest presets merged,
        jobs s = (MergeInner key orig n, Resolve result) :: rest ∧
        JSON_parse result = Return presets ∧
        merge presets orig = Return merged ∧
        presets_ (tick s) !! key = Some n
  | _ => False
  end.
(** ** Frame lemmas for the promise runtime *)

Lemma same_manager_refl s : same_manager s s.
Proof. by repeat split. Qed.

Lemma settle_same p o s : same_manager s (settle p o s).
Proof.
  unfold settle. destruct (promises s !! p) as [[src []]|]; try apply same_manager_refl.
  destruct (release p o (waiting s)). by repeat split.
Qed.

Lemma subscribe_same p cb s : same_manager s (subscribe p cb s).
Proof. unfold subscribe. destruct (status_at p s); by repeat split. Qed.

Lemma deliver_same p o s : same_manager s (deliver p o s).
Proof.
  unfold deliver. destruct (promises s !! p) as [[[] ?]|];
    auto using same_manager_refl, settle_same.
Qed.

Lemma same_manager_store s s' : same_manager s s' → same_store s s'.
Proof. intros (?&?&?&?&?&?&?). by repeat split. Qed.

Lemma same_store_applied id s s' : same_store s s' → is_applied id s' = is_applied id s.
Proof. intros (Hs&_&_). unfold is_applied, applied_defaults. by rewrite Hs. Qed.

Lemma same_store_credit id s s' : same_store s s' → credit id s' = credit id s.
Proof. intros H. unfold credit. by rewrite (same_store_applied id s s'). Qed.

Lemma same_store_times id s s' : same_store s s' → times_executed id s' = times_executed id s.
Proof. intros (_&He&_). unfold times_executed. by rewrite He. Qed.

Ltac frame_solve :=
  unfold same_store, same_manager, subscribe, new_promise; cbn;
  repeat (case_match; cbn); repeat split; done.

Lemma registerPreset_store type url s : same_store s (registerPreset type url s).2.
Proof. unfold registerPreset. frame_solve. Qed.

Lemma construct_store id opt s : same_store s (construct id opt s).
Proof. unfold construct. frame_solve. Qed.

Lemma initPreset_cases id opt s :
  initPreset id opt s = (Return VUndefined, construct id opt s) ∨
  ∃ e, addDefault_throws id s = Some e ∧ initPreset id opt s = (Throw e, s).
Proof. unfold initPreset. destruct (addDefault_throws id s); eauto. Qed.

Lemma initPreset_store id opt s : same_store s (initPreset id opt s).2.
Proof.
  destruct (initPreset_cases id opt s) as [->|(e&_&->)]; [apply construct_store|].
  by repeat split.
Qed.

(** The state after getPresets: initPreset runs when the lookup of line 115
    finds nothing, and only then. *)
Lemma getPresets_state id opt s :
  (getPresets id opt s).2 =
  match cache id s with
  | NoEntry => (initPreset id opt s).2
  | _ => s
  end.
Proof.
  unfold getPresets. destruct (cache id s); try done.
  by destruct (initPreset id opt s) as [[] ?].
Qed.

Lemma getPresets_store id opt s : same_store s (getPresets id opt s).2.
Proof.
  rewrite getPresets_state. destruct (cache id s); try by repeat split.
  apply initPreset_store.
Qed.

(** ** applyDefaults *)

Lemma applyDefaults_empty id s : applyDefaults id (IsArray []) s = s.
Proof. reflexivity. Qed.

Lemma applyDefaults_applied id presets s :
  is_applied id s = true → applyDefaults id presets s = s.
Proof.
  intros Ha. unfold applyDefaults. destruct presets as [|l]; [done|].
  rewrite Ha. by rewrite andb_false_r.
Qed.

Lemma applyDefaults_marks id l s :
  l ≠ [] → is_applied id (applyDefaults id (IsArray l) s) = true.
Proof.
  intros Hl. unfold applyDefaults.
  destruct l as [|p l]; [done|]. cbn [length Nat.eqb negb andb].
  destruct (is_applied id s) eqn:Ha; cbn [negb]; [done|].
  unfold is_applied, applied_defaults.
  destruct (find preset_default (p :: l)); cbn; by rewrite lookup_insert_eq.
Qed.

Lemma applyDefaults_keeps_applied id id' presets s :
  is_applied id s = true → is_applied id (applyDefaults id' presets s) = true.
Proof.
  intros Ha. unfold applyDefaults. destruct presets as [|l]; [done|].
  destruct (negb (length l =? 0) && negb (is_applied id' s)) eqn:Hc; [|done].
  assert (Hne : id' ≠ id).
  { intros ->. rewrite Ha in Hc. by rewrite andb_false_r in Hc. }
  revert Ha. unfold is_applied, applied_defaults.
  destruct (find preset_default l); cbn; by rewrite lookup_insert_ne.
Qed.

Lemma applyDefaults_budget id id' presets s :
  times_executed id (applyDefaults id' presets s) + credit id (applyDefaults id' presets s)
  ≤ times_executed id s + credit id s.
Proof.
  unfold applyDefaults. destruct presets as [|l]; [done|].
  destruct (negb (length l =? 0) && negb (is_applied id' s)) eqn:Hc; [|done].
  apply andb_true_iff in Hc as [_ Hc]. apply negb_true_iff in Hc.
  destruct (decide (id' = id)) as [->|Hne].
  - unfold credit at 2. rewrite Hc.
    unfold credit, is_applied, applied_defaults, times_executed.
    destruct (find preset_default l); cbn; rewrite lookup_insert_eq.
    + rewrite List.filter_app, length_app. cbn. rewrite String.eqb_refl. cbn. lia.
    + lia.
  - assert (String.eqb id' id = false) as Hb by by apply String.eqb_neq.
    unfold credit, is_applied, applied_defaults, times_executed.
    destruct (find preset_default l); cbn; rewrite lookup_insert_ne by done.
    + rewrite List.filter_app, length_app. cbn. rewrite Hb. cbn. lia.
    + lia.
Qed.

(** ** The applied-defaults set along a run *)

Lemma same_store_advance s s' : same_store s s' → store_advance s s'.
Proof.
  intros H id. rewrite (same_store_applied id s s' H), (same_store_credit id s s' H),
    (same_store_times id s s' H). split; [done|lia].
Qed.

Lemma store_advance_trans s1 s2 s3 :
  store_advance s1 s2 → store_advance s2 s3 → store_advance s1 s3.
Proof.
  intros H1 H2 id. destruct (H1 id) as [Ha1 Hb1], (H2 id) as [Ha2 Hb2].
  split; [auto|lia].
Qed.

Lemma applyDefaults_advance id presets s : store_advance s (applyDefaults id presets s).
Proof.
  intros id'. split.
  - apply applyDefaults_keeps_applied.
  - apply applyDefaults_budget.
Qed.

Lemma body_advance cb o s : store_advance s (body cb o s).2.
Proof.
  destruct cb as [c|t u c|t orig n|id [] l p], o; cbn.
  all: try apply (applyDefaults_advance id (as_presets_arg l)).
  all: apply same_store_advance; unfold handleLoadError; frame_solve.
Qed.

Lemma run_job_advance cb o s : store_advance s (run_job cb o s).
Proof.
  unfold run_job. pose proof (body_advance cb o s) as H.
  destruct (body cb o s) as [c s']. cbn in H.
  eapply store_advance_trans; [exact H|].
  apply same_store_advance, same_manager_store, settle_same.
Qed.

Lemma step_advance e s : store_advance s (step e s).
Proof.
  destruct e; cbn.
  - apply same_store_advance, registerPreset_store.
  - apply same_store_advance, getPresets_store.
  - apply same_store_advance, initPreset_store.
  - apply applyDefaults_advance.
  - apply same_store_advance, same_manager_store, deliver_same.
  - unfold tick. destruct (jobs s) as [|[cb o] rest]; [by apply same_store_advance|].
    eapply store_advance_trans; [|apply run_job_advance].
    by apply same_store_advance.
Qed.

Lemma run_advance evs s : store_advance s (run evs s).
Proof.
  revert s. induction evs as [|e evs IH]; intros s; cbn.
  - by apply same_store_advance.
  - eapply store_advance_trans; [apply step_advance|apply IH].
Qed.

(** ** handleLoadError and applyDefaults: the claims *)

(** C7. handleLoadError logs exactly one message, made of a fixed prefix and
    the reason itself when the reason is a string, the error's message when it
    is an Error, and "Unspecified error." otherwise; it returns normally
    (with undefined) and changes nothing else. *)
Theorem handleLoadError_logs_one_message (reason : jsval) (s : state) :
  ∃ msg : string,
    handleLoadError reason s =
      (Return VUndefined,
       with_logged (λ l, l ++ ["Failed to load presets. Reason: " +:+ msg]) s) ∧
    logged (handleLoadError reason s).2 =
      logged s ++ ["Failed to load presets. Reason: " +:+ msg] ∧
    (∀ str, reason = VString str → msg = str) ∧
    (∀ message, reason = VError message → msg = message) ∧
    ((∀ str, reason ≠ VString str) → (∀ message, reason ≠ VError message) →
     msg = "Unspecified error.").
Proof.
  destruct reason as [| |b|x|str|message|p|fields|items|name];
    [exists "Unspecified error."|exists "Unspecified error."|exists "Unspecified error."
    |exists "Unspecified error."|exists str|exists message|exists "Unspecified error."
    |exists "Unspecified error."|exists "Unspecified error."|exists "Unspecified error."];
    repeat split; try done; try congruence.
  - intros H _. by destruct (H str).
  - intros _ H. by destruct (H message).
Qed.

(** C3, as the code has it. applyDefaults with an empty preset list changes
    nothing: no command is executed, and the applied-defaults set is not
    written, so [id] is not recorded by the call. *)
Theorem applyDefaults_empty_list_is_noop (id : string) (s : state) :
  applyDefaults id (IsArray []) s = s ∧
  executed (applyDefaults id (IsArray []) s) = executed s ∧
  is_applied id (applyDefaults id (IsArray []) s) = is_applied id s.
Proof. by rewrite applyDefaults_empty. Qed.

(** C4. After a call of applyDefaults with a non-empty list, [id] is marked
    applied, and stays so whatever happens next; a second call of applyDefaults
    for [id], with any argument, then changes nothing and executes no command.
    Over the two calls and everything between them at most one command is
    executed for [id]. *)
Theorem applyDefaults_second_call_executes_nothing
    (id : string) (l : list Preset) (presets' : presets_arg)
    (evs : list event) (s : state) :
  l ≠ [] →
  let s1 := applyDefaults id (IsArray l) s in
  let s2 := run evs s1 in
  is_applied id s1 = true ∧
  applyDefaults id presets' s2 = s2 ∧
  executed (applyDefaults id presets' s2) = executed s2 ∧
  times_executed id (applyDefaults id presets' s2) ≤ times_executed id s + 1.
Proof.
  intros Hl s1 s2.
  assert (H1 : is_applied id s1 = true) by by apply applyDefaults_marks.
  assert (H2 : is_applied id s2 = true) by by apply (run_advance evs s1 id).
  assert (H3 : applyDefaults id presets' s2 = s2) by by apply applyDefaults_applied.
  rewrite H3. repeat split; try done.
  pose proof (applyDefaults_advance id (IsArray l) s id) as [_ Ha].
  pose proof (run_advance evs s1 id) as [_ Hb]. fold s1 in Ha. fold s2 in Hb.
  unfold credit in Ha, Hb. rewrite H1 in Ha, Hb. rewrite H2 in Hb.
  destruct (is_applied id s); lia.
Qed.

(** C10. applyDefaults called with something that is not an array, with an
    empty array, or for an [id] already marked applied returns the state it
    was given: no command is executed and the settings are not written. *)
Theorem applyDefaults_guard_is_noop (id : string) (presets : presets_arg) (s : state) :
  presets = NotArray ∨ presets = IsArray [] ∨ is_applied id s = true →
  applyDefaults id presets s = s ∧
  executed (applyDefaults id presets s) = executed s ∧
  settings (applyDefaults id presets s) = settings s.
Proof.
  intros H.
  assert (applyDefaults id presets s = s) as ->; [|done].
  destruct H as [->|[->|H]]; [done|done|by apply applyDefaults_applied].
Qed.

(** ** Requests are issued at most once per URL *)

Lemma release_split url p o ws :
  length (List.filter (will_request url) (fst <$> (release p o ws).1)) +
  length (List.filter (will_request url) (snd <$> (release p o ws).2)) =
  length (List.filter (will_request url) (snd <$> ws)).
Proof.
  induction ws as [|[q cb] ws IH]; [done|].
  cbn [release]. destruct (release p o ws) as [ready rest]. cbn in IH.
  destruct (q =? p); cbn; destruct (will_request url cb); cbn; lia.
Qed.

Lemma settle_fetches url p o s : fetches url (settle p o s) = fetches url s.
Proof.
  unfold settle. destruct (promises s !! p) as [[src []]|] eqn:Hp; try done.
  destruct (release p o (waiting s)). unfold fetches. cbn.
  rewrite list_fmap_insert. cbn.
  rewrite (list_insert_id (origin_of <$> promises s) p src); [done|].
  by rewrite list_lookup_fmap, Hp.
Qed.

Lemma settle_owed url p o s : owed url (settle p o s) = owed url s.
Proof.
  unfold settle. destruct (promises s !! p) as [[src []]|] eqn:Hp; try done.
  pose proof (release_split url p o (waiting s)) as H.
  destruct (release p o (waiting s)) as [ready rest]. unfold owed. cbn in *.
  rewrite fmap_app, List.filter_app, length_app. lia.
Qed.

Lemma registerPreset_requested type url s :
  is_requested url (registerPreset type url s).2 = true.
Proof.
  unfold registerPreset. destruct (is_requested url s) eqn:Hr; cbn [negb]; [done|].
  unfold is_requested.
  destruct (cache type s); cbn.
  - unfold subscribe. destruct (status_at _ _); cbn; by rewrite lookup_insert_eq.
  - unfold subscribe. destruct (status_at _ _); cbn; by rewrite lookup_insert_eq.
  - by rewrite lookup_insert_eq.
Qed.

Lemma registerPreset_again type url s :
  is_requested url s = true → registerPreset type url s = (Return VUndefined, s).
Proof. intros H. unfold registerPreset. by rewrite H. Qed.

Lemma registerPreset_keeps_requested type u url s :
  is_requested url s = true → is_requested url (registerPreset type u s).2 = true.
Proof.
  intros H. unfold registerPreset. destruct (is_requested u s) eqn:Hu; cbn [negb]; [done|].
  assert (u ≠ url) by congruence.
  revert H. unfold is_requested.
  destruct (cache type s); cbn; unfold subscribe; try destruct (status_at _ _); cbn;
    by rewrite lookup_insert_ne.
Qed.

Lemma eqb_decide (u url : string) :
  String.eqb u url = if decide (u = url) then true else false.
Proof.
  destruct (decide (u = url)) as [->|Hne]; [apply String.eqb_refl|by apply String.eqb_neq].
Qed.

Ltac count_solve :=
  unfold fetches, owed, subscribe, new_promise; cbn;
  repeat (case_match; cbn);
  repeat (rewrite ?fmap_app, ?List.filter_app, ?length_app; cbn);
  repeat (case_match; cbn); try lia.

(** A call for a URL not yet requested adds one request for it, issued or
    owed by a callback, and none when line 66 throws. *)
Lemma registerPreset_issues type u url s :
  is_requested u s = false →
  fetches url (registerPreset type u s).2 + owed url (registerPreset type u s).2 =
  fetches url s + owed url s +
  (if String.eqb u url then match cache type s with Member _ => 0 | _ => 1 end else 0).
Proof.
  intros Hu. unfold registerPreset. rewrite Hu. cbn [negb].
  destruct (cache type s); count_solve.
Qed.

Lemma registerPreset_marks type u s :
  is_requested u s = false →
  requested_ (registerPreset type u s).2 = <[u := true]> (requested_ s).
Proof.
  intros Hu. unfold registerPreset. rewrite Hu. cbn [negb].
  destruct (cache type s); unfold subscribe, new_promise; cbn;
    by repeat (case_match; cbn).
Qed.

Lemma registerPreset_single url type u s :
  single_flight url s → single_flight url (registerPreset type u s).2.
Proof.
  unfold single_flight. intros H.
  destruct (is_requested u s) eqn:Hu.
  { by rewrite registerPreset_again. }
  rewrite registerPreset_issues by done.
  unfold is_requested at 1. rewrite registerPreset_marks by done.
  rewrite lookup_insert, eqb_decide.
  destruct (decide (u = url)) as [->|Hne].
  - rewrite Hu in H. destruct (cache type s); lia.
  - fold (is_requested url s). lia.
Qed.

Lemma construct_issues url id opt s :
  fetches url (construct id opt s) + owed url (construct id opt s) =
  fetches url s + owed url s.
Proof. unfold construct. count_solve. Qed.

Lemma construct_requested id opt s : requested_ (construct id opt s) = requested_ s.
Proof. unfold construct, subscribe, new_promise. cbn. by repeat (case_match; cbn). Qed.

Lemma initPreset_issues url id opt s :
  fetches url (initPreset id opt s).2 + owed url (initPreset id opt s).2 =
  fetches url s + owed url s.
Proof.
  destruct (initPreset_cases id opt s) as [->|(e&_&->)]; [apply construct_issues|done].
Qed.

Lemma initPreset_requested id opt s : requested_ (initPreset id opt s).2 = requested_ s.
Proof.
  destruct (initPreset_cases id opt s) as [->|(e&_&->)]; [apply construct_requested|done].
Qed.

Lemma applyDefaults_runtime id presets s :
  promises (applyDefaults id presets s) = promises s ∧
  waiting (applyDefaults id presets s) = waiting s ∧
  jobs (applyDefaults id presets s) = jobs s ∧
  requested_ (applyDefaults id presets s) = requested_ s ∧
  presets_ (applyDefaults id presets s) = presets_ s.
Proof. unfold applyDefaults. by repeat (case_match; cbn). Qed.

Lemma body_issues url cb o s :
  fetches url (body cb o s).2 + owed url (body cb o s).2 ≤
  fetches url s + owed url s + (if will_request url cb then 1 else 0).
Proof.
  destruct cb as [c|t u c|t orig n|id opt l p], o; cbn [body will_request];
    try (unfold handleLoadError; count_solve).
  all: destruct opt; cbn [snd]; try lia.
  all: destruct (applyDefaults_runtime id (as_presets_arg l) s) as (Hp&Hw&Hj&_).
  all: unfold fetches, owed; rewrite Hp, Hw, Hj; lia.
Qed.

Lemma body_requested cb o s : requested_ (body cb o s).2 = requested_ s.
Proof.
  destruct cb as [c|t u c|t orig n|id opt l p], o; cbn [body];
    try (unfold handleLoadError, subscribe, new_promise; cbn; by repeat (case_match; cbn)).
  all: destruct opt; cbn [snd]; try done.
  all: by destruct (applyDefaults_runtime id (as_presets_arg l) s) as (_&_&_&Hr&_).
Qed.

Lemma settle_requested p o s : requested_ (settle p o s) = requested_ s.
Proof. by destruct (settle_same p o s) as (_&?&_). Qed.

Lemma run_job_issues url cb o s :
  fetches url (run_job cb o s) + owed url (run_job cb o s) ≤
  fetches url s + owed url s + (if will_request url cb then 1 else 0).
Proof.
  unfold run_job. pose proof (body_issues url cb o s) as H.
  destruct (body cb o s) as [c s']. cbn [snd] in H.
  by rewrite settle_fetches, settle_owed.
Qed.

Lemma run_job_requested cb o s : requested_ (run_job cb o s) = requested_ s.
Proof.
  unfold run_job. pose proof (body_requested cb o s) as H.
  destruct (body cb o s) as [c s']. cbn [snd] in H.
  by rewrite settle_requested.
Qed.

Lemma tick_requested s : requested_ (tick s) = requested_ s.
Proof.
  unfold tick. destruct (jobs s) as [|[cb o] rest]; [done|].
  by rewrite run_job_requested.
Qed.

Lemma tick_single url s : single_flight url s → single_flight url (tick s).
Proof.
  unfold single_flight, is_requested. rewrite tick_requested.
  unfold tick. destruct (jobs s) as [|[cb o] rest] eqn:Hj; [done|].
  intros H.
  pose proof (run_job_issues url cb o (with_jobs (λ _, rest) s)) as Hr.
  assert (owed url s = owed url (with_jobs (λ _, rest) s) +
                       (if will_request url cb then 1 else 0)) as Ho.
  { unfold owed. rewrite Hj. cbn. destruct (will_request url cb); cbn; lia. }
  assert (fetches url (with_jobs (λ _, rest) s) = fetches url s) as Hf by done.
  lia.
Qed.

Lemma deliver_single url p o s : single_flight url s → single_flight url (deliver p o s).
Proof.
  unfold deliver. destruct (promises s !! p) as [[[] ?]|]; try done.
  all: unfold single_flight, is_requested;
    by rewrite settle_fetches, settle_owed, settle_requested.
Qed.

Lemma step_single url e s : single_flight url s → single_flight url (step e s).
Proof.
  destruct e; cbn [step].
  - apply registerPreset_single.
  - rewrite getPresets_state. destruct (cache id s); try done.
    unfold single_flight, is_requested.
    by rewrite initPreset_issues, initPreset_requested.
  - unfold single_flight, is_requested.
    by rewrite initPreset_issues, initPreset_requested.
  - destruct (applyDefaults_runtime id presets s) as (Hp&Hw&Hj&Hr&_).
    unfold single_flight, is_requested, fetches, owed. by rewrite Hp, Hw, Hj, Hr.
  - apply deliver_single.
  - apply tick_single.
Qed.

Lemma run_single url evs s : single_flight url s → single_flight url (run evs s).
Proof.
  revert s. induction evs as [|e evs IH]; intros s H; [done|].
  cbn. by apply IH, step_single.
Qed.

Lemma step_keeps_requested url e s :
  is_requested url s = true → is_requested url (step e s) = true.
Proof.
  destruct e; cbn [step].
  - apply registerPreset_keeps_requested.
  - rewrite getPresets_state. destruct (cache id s); try done.
    unfold is_requested. by rewrite initPreset_requested.
  - unfold is_requested. by rewrite initPreset_requested.
  - destruct (applyDefaults_runtime id presets s) as (_&_&_&Hr&_).
    unfold is_requested. by rewrite Hr.
  - destruct (deliver_same p o s) as (_&Hr&_). unfold is_requested. by rewrite Hr.
  - unfold is_requested. by rewrite tick_requested.
Qed.

Lemma run_keeps_requested url evs s :
  is_requested url s = true → is_requested url (run evs s) = true.
Proof.
  revert s. induction evs as [|e evs IH]; intros s H; [done|].
  cbn. by apply IH, step_keeps_requested.
Qed.

Lemma single_flight_fresh url st ly : single_flight url (fresh st ly).
Proof. unfold single_flight. cbn. lia. Qed.

(** C2. A URL is requested at most once in the life of a manager.  A call of
    registerPreset marks its URL requested, the mark is never removed, and a
    call for a marked URL returns normally with the state unchanged: it issues
    no request and touches no cache entry.  This holds whatever the types are
    and whatever happened to the first request in between. *)
Theorem registerPreset_requests_url_once (url : string) :
  (∀ evs, fetches url (run evs init) ≤ 1) ∧
  (∀ type s, is_requested url (registerPreset type url s).2 = true) ∧
  (∀ evs s, is_requested url s = true → is_requested url (run evs s) = true) ∧
  (∀ type1 type2 evs s,
     let s1 := run evs (registerPreset type1 url s).2 in
     registerPreset type2 url s1 = (Return VUndefined, s1) ∧
     fetches url (registerPreset type2 url s1).2 = fetches url s1 ∧
     presets_ (registerPreset type2 url s1).2 = presets_ s1).
Proof.
  split; [|split; [|split]].
  - intros evs.
    assert (single_flight url (run evs init)) as H
      by apply run_single, (single_flight_fresh url (mkSettings None None 0) ∅).
    unfold single_flight in H. destruct (is_requested url (run evs init)); lia.
  - intros. apply registerPreset_requested.
  - intros. by apply run_keeps_requested.
  - intros type1 type2 evs s s1.
    assert (registerPreset type2 url s1 = (Return VUndefined, s1)) as ->; [|done].
    apply registerPreset_again, run_keeps_requested, registerPreset_requested.
Qed.

(** ** Well-formedness of the promise runtime *)

Lemma wf_runtime s s' :
  promises s' = promises s → waiting s' = waiting s → jobs s' = jobs s →
  wf s → wf s'.
Proof. unfold wf, targets. by intros -> -> ->. Qed.

Lemma wf_lt s c : wf s → c ∈ targets s → c < length (promises s).
Proof. intros [_ H] Hc. eapply lookup_lt_Some. by apply H. Qed.

Lemma wf_alloc o s : wf s → wf (alloc o s).
Proof.
  intros Hwf. pose proof Hwf as [Hnd Hp]. split; [done|].
  intros c Hc. change (targets (alloc o s)) with (targets s) in Hc.
  cbn. rewrite lookup_app_l by by apply wf_lt. by apply Hp.
Qed.

Lemma subscribe_promises p cb s : promises (subscribe p cb s) = promises s.
Proof. unfold subscribe. by destruct (status_at p s). Qed.

Lemma subscribe_targets p cb s : targets (subscribe p cb s) ≡ₚ target cb :: targets s.
Proof.
  unfold subscribe, targets. destruct (status_at p s); cbn; rewrite fmap_app; cbn.
  - rewrite <- app_assoc. cbn. by rewrite <- Permutation_middle.
  - rewrite app_assoc. by rewrite <- Permutation_cons_append.
  - rewrite app_assoc. by rewrite <- Permutation_cons_append.
Qed.

Lemma wf_subscribe p cb s :
  wf s → promises s !! target cb = Some (mkPromise Chained Pending) →
  target cb ∉ targets s → wf (subscribe p cb s).
Proof.
  intros [Hnd Hp] Hc Hfresh. split.
  - rewrite subscribe_targets. by apply NoDup_cons.
  - intros c. rewrite subscribe_targets, subscribe_promises.
    intros [->|Hin]%elem_of_cons; auto.
Qed.

Lemma release_targets p o ws :
  (target ∘ fst <$> (release p o ws).1) ++ (target ∘ snd <$> (release p o ws).2)
  ≡ₚ target ∘ snd <$> ws.
Proof.
  induction ws as [|[q cb] ws IH]; [done|].
  cbn [release]. destruct (release p o ws) as [ready rest]. cbn in IH.
  destruct (q =? p); cbn.
  - by rewrite IH.
  - by rewrite <- Permutation_middle, IH.
Qed.

Lemma settle_targets p o s : targets (settle p o s) ≡ₚ targets s.
Proof.
  unfold settle. destruct (promises s !! p) as [[src []]|]; try done.
  pose proof (release_targets p o (waiting s)) as H.
  destruct (release p o (waiting s)) as [ready rest]. unfold targets. cbn in *.
  rewrite <- H, fmap_app.
  rewrite (Permutation_app_comm (target ∘ fst <$> ready)).
  by rewrite <- !app_assoc, (Permutation_app_comm (target ∘ fst <$> jobs s)).
Qed.

Lemma settle_lookup_ne p q o s : q ≠ p → promises (settle p o s) !! q = promises s !! q.
Proof.
  intros Hne. unfold settle. destruct (promises s !! p) as [[src []]|]; try done.
  destruct (release p o (waiting s)). cbn. by rewrite list_lookup_insert_ne.
Qed.

Lemma wf_settle p o s : wf s → p ∉ targets s → wf (settle p o s).
Proof.
  intros [Hnd Hp] Hfresh. split.
  - by rewrite settle_targets.
  - intros c. rewrite settle_targets. intros Hc.
    rewrite settle_lookup_ne; [by apply Hp|]. by intros ->.
Qed.

Lemma fresh_notin s c : wf s → length (promises s) ≤ c → c ∉ targets s.
Proof. intros Hwf Hle Hin. apply (wf_lt s c Hwf) in Hin. lia. Qed.

Lemma wf_fresh st ly : wf (fresh st ly).
Proof. split; [constructor|]. intros c Hc. by apply elem_of_nil in Hc. Qed.


Lemma lookup_alloc_new o s :
  promises (alloc o s) !! (length (promises s)) = Some (mkPromise o Pending).
Proof. cbn. by apply list_lookup_middle. Qed.

Lemma lookup_alloc_old o s c :
  c < length (promises s) → promises (alloc o s) !! c = promises s !! c.
Proof. intros H. cbn. by rewrite lookup_app_l. Qed.

Lemma length_alloc o s : length (promises (alloc o s)) = S (length (promises s)).
Proof. cbn. rewrite length_app. cbn. lia. Qed.

Lemma wf_registerPreset type url s : wf s → wf (registerPreset type url s).2.
Proof.
  intros Hwf. unfold registerPreset, new_promise.
  destruct (negb (is_requested url s)); [|done].
  destruct (cache type s) as [|p|name]; cbv beta iota zeta; cbn [snd].
  - eapply wf_runtime; [reflexivity..|].
    apply wf_subscribe.
    + by do 2 apply wf_alloc.
    + apply lookup_alloc_new.
    + apply (fresh_notin s); [done|]. cbn. rewrite length_app. lia.
  - apply wf_subscribe.
    + by apply wf_alloc.
    + apply lookup_alloc_new.
    + by apply (fresh_notin s).
  - by apply (wf_runtime s).
Qed.

Lemma wf_construct id opt s : wf s → wf (construct id opt s).
Proof.
  intros Hwf. unfold construct, new_promise. cbv beta iota zeta.
  eapply wf_runtime; [reflexivity..|].
  apply wf_subscribe.
  - by do 2 apply wf_alloc.
  - cbn [target]. rewrite lookup_alloc_old by (rewrite length_alloc; lia).
    apply lookup_alloc_new.
  - by apply (fresh_notin s).
Qed.

Lemma wf_initPreset id opt s : wf s → wf (initPreset id opt s).2.
Proof.
  intros Hwf.
  destruct (initPreset_cases id opt s) as [->|(e&_&->)]; [by apply wf_construct|done].
Qed.

Lemma wf_applyDefaults id presets s : wf s → wf (applyDefaults id presets s).
Proof.
  destruct (applyDefaults_runtime id presets s) as (Hp&Hw&Hj&_).
  by apply wf_runtime.
Qed.

Lemma body_wf cb o s c :
  wf s → c ∉ targets s → promises s !! c = Some (mkPromise Chained Pending) →
  wf (body cb o s).2 ∧ (c ∉ targets (body cb o s).2) ∧
  promises ((body cb o s).2) !! c = Some (mkPromise Chained Pending).
Proof.
  intros Hwf Hc Hp.
  assert (c < length (promises s)) as Hlt by by eapply lookup_lt_Some.
  destruct cb as [ch|t u ch|t orig n|id opt l p], o; cbn [body handleLoadError].
  all: try (by repeat case_match).
  - unfold new_promise. cbv beta iota zeta. cbn [snd].
    split; [|split].
    + eapply wf_runtime; [reflexivity..|]. apply wf_subscribe.
      * by do 2 apply wf_alloc.
      * apply lookup_alloc_new.
      * apply (fresh_notin s); [done|]. cbn [target]. rewrite length_alloc. lia.
    + change (c ∉ targets (subscribe (length (promises s))
        (MergeInner t v (length (promises (alloc (Request u) s))))
        (alloc Chained (alloc (Request u) s)))).
      rewrite subscribe_targets. cbn [target]. rewrite length_alloc.
      intros [->|Hin]%elem_of_cons; [lia|done].
    + change (promises (subscribe (length (promises s))
        (MergeInner t v (length (promises (alloc (Request u) s))))
        (alloc Chained (alloc (Request u) s))) !! c = Some (mkPromise Chained Pending)).
      rewrite subscribe_promises, !lookup_alloc_old; [done|lia|rewrite length_alloc; lia].
  - destruct opt; cbn [snd]; [|done].
    destruct (applyDefaults_runtime id (as_presets_arg l) s) as (Hp'&Hw&Hj&_).
    split; [by apply wf_applyDefaults|]. unfold targets. by rewrite Hp', Hw, Hj.
  - destruct opt; cbn [snd]; [|done].
    destruct (applyDefaults_runtime id (as_presets_arg l) s) as (Hp'&Hw&Hj&_).
    split; [by apply wf_applyDefaults|]. unfold targets. by rewrite Hp', Hw, Hj.
Qed.

Lemma wf_run_job cb o s :
  wf s → target cb ∉ targets s →
  promises s !! target cb = Some (mkPromise Chained Pending) →
  wf (run_job cb o s).
Proof.
  intros Hwf Hc Hp. unfold run_job.
  destruct (body_wf cb o s (target cb) Hwf Hc Hp) as (H1&H2&_).
  destruct (body cb o s) as [c s']. by apply wf_settle.
Qed.

Lemma wf_pop cb o rest s :
  wf s → jobs s = (cb, o) :: rest →
  wf (with_jobs (λ _, rest) s) ∧ (target cb ∉ targets (with_jobs (λ _, rest) s)) ∧
  promises s !! target cb = Some (mkPromise Chained Pending).
Proof.
  intros [Hnd Hp] Hj. unfold wf, targets in *. rewrite Hj in *. cbn in *.
  apply NoDup_app in Hnd as (Hw&Hwj&Hjs). apply NoDup_cons in Hjs as [Hcr Hr].
  repeat split.
  - apply NoDup_app. repeat split; [done| |done].
    intros x Hx Hx'. apply (Hwj x Hx). by right.
  - intros c Hc. apply Hp. apply elem_of_app.
    apply elem_of_app in Hc as [?|?]; [by left|right; by right].
  - intros [Hin|Hin]%elem_of_app; [|done]. apply (Hwj _ Hin). by left.
  - apply Hp. apply elem_of_app. right. by left.
Qed.

Lemma wf_tick s : wf s → wf (tick s).
Proof.
  intros Hwf. unfold tick. destruct (jobs s) as [|[cb o] rest] eqn:Hj; [done|].
  destruct (wf_pop cb o rest s Hwf Hj) as (H1&H2&H3). by apply wf_run_job.
Qed.

Lemma wf_deliver p o s : wf s → wf (deliver p o s).
Proof.
  intros Hwf. unfold deliver. destruct (promises s !! p) as [[[] ?]|] eqn:Hp; try done.
  all: apply wf_settle; [done|]; intros Hin; apply Hwf in Hin; congruence.
Qed.

Lemma wf_step e s : wf s → wf (step e s).
Proof.
  intros Hwf. destruct e; cbn [step].
  - by apply wf_registerPreset.
  - rewrite getPresets_state. destruct (cache id s); try done.
    by apply wf_initPreset.
  - by apply wf_initPreset.
  - by apply wf_applyDefaults.
  - by apply wf_deliver.
  - by apply wf_tick.
Qed.

Lemma wf_run evs s : wf s → wf (run evs s).
Proof.
  revert s. induction evs as [|e evs IH]; intros s H; [done|].
  cbn. by apply IH, wf_step.
Qed.

(** ** Steps that settle nothing *)

Lemma keeps_refl s : keeps s s.
Proof. repeat split; try done. exists []. by rewrite app_nil_r. Qed.

Lemma keeps_trans s1 s2 s3 : keeps s1 s2 → keeps s2 s3 → keeps s1 s3.
Proof.
  intros (Hp1&Hw1&[m1 Hj1]) (Hp2&Hw2&[m2 Hj2]). repeat split; auto.
  exists (m1 ++ m2). by rewrite Hj2, Hj1, app_assoc.
Qed.

Lemma keeps_runtime s s' :
  promises s' = promises s → waiting s' = waiting s → jobs s' = jobs s → keeps s s'.
Proof.
  intros Hp Hw Hj. unfold keeps. rewrite Hp, Hw, Hj. repeat split; try done.
  exists []. by rewrite app_nil_r.
Qed.

Lemma keeps_alloc o s : keeps s (alloc o s).
Proof.
  repeat split; try done.
  - intros q pr H. cbn. by apply lookup_app_l_Some.
  - exists []. by rewrite app_nil_r.
Qed.

Lemma keeps_subscribe p cb s : keeps s (subscribe p cb s).
Proof.
  unfold subscribe. destruct (status_at p s); repeat split; cbn; try done.
  - intros w Hw. apply elem_of_app. by left.
  - exists []. by rewrite app_nil_r.
  - by eexists.
  - by eexists.
Qed.





Lemma keeps_applyDefaults id presets s : keeps s (applyDefaults id presets s).
Proof.
  destruct (applyDefaults_runtime id presets s) as (Hp&Hw&Hj&_).
  by apply keeps_runtime.
Qed.

Lemma keeps_body cb o s : keeps s (body cb o s).2.
Proof.
  destruct cb as [ch|t u ch|t orig n|id opt l p], o; cbn [body handleLoadError].
  all: try (repeat case_match; by apply keeps_runtime).
  - unfold new_promise. cbv beta iota zeta. cbn [snd].
    eapply keeps_trans; [|by apply keeps_runtime].
    eapply keeps_trans; [|apply keeps_subscribe].
    eapply keeps_trans; [|apply keeps_alloc]. apply keeps_alloc.
  - destruct opt; cbn [snd]; [apply keeps_applyDefaults|apply keeps_refl].
  - destruct opt; cbn [snd]; [apply keeps_applyDefaults|apply keeps_refl].
Qed.

(** ** Settling a promise *)


Lemma release_same p o cb ws :
  (p, cb) ∈ ws → (cb, o) ∈ (release p o ws).1.
Proof.
  induction ws as [|[q' cb'] ws IH]; [by intros ?%elem_of_nil|].
  cbn [release]. destruct (release p o ws) as [ready rest]. cbn [fst] in *.
  intros [Heq|Hin]%elem_of_cons.
  - injection Heq as <- <-. rewrite Nat.eqb_refl. by left.
  - destruct (q' =? p); cbn; [right|]; auto.
Qed.



Lemma settle_pending p o src s :
  promises s !! p = Some (mkPromise src Pending) →
  promises (settle p o s) !! p = Some (mkPromise src (settled o)) ∧
  ∀ cb, (p, cb) ∈ waiting s → (cb, o) ∈ jobs (settle p o s).
Proof.
  intros Hp. unfold settle. rewrite Hp.
  pose proof (λ cb, release_same p o cb (waiting s)) as H.
  destruct (release p o (waiting s)) as [ready rest]. cbn in *. split.
  - apply list_lookup_insert_eq. by eapply lookup_lt_Some.
  - intros cb Hin. apply elem_of_app. right. auto.
Qed.

Lemma settle_settled p o q pr s :
  promises s !! q = Some pr → status_of pr ≠ Pending →
  promises (settle p o s) !! q = Some pr.
Proof.
  intros Hq Hst. destruct (decide (q = p)) as [->|Hne].
  - unfold settle. rewrite Hq. by destruct pr as [src []].
  - by rewrite settle_lookup_ne.
Qed.


(** ** The promise made by initPreset *)

Lemma status_at_lookup q src st s :
  promises s !! q = Some (mkPromise src st) → status_at q s = st.
Proof. intros H. unfold status_at. by rewrite H. Qed.

Lemma status_at_settled q s :
  status_at q s ≠ Pending →
  ∃ pr, promises s !! q = Some pr ∧ status_of pr = status_at q s ∧ status_of pr ≠ Pending.
Proof.
  unfold status_at. destruct (promises s !! q) as [pr|]; [|done]. eauto.
Qed.

Lemma keeps_status_settled q s s' :
  keeps s s' → status_at q s ≠ Pending → status_at q s' = status_at q s.
Proof.
  intros (Hp&_&_) H. destruct (status_at_settled q s H) as (pr&Hq&_&_).
  unfold status_at. by rewrite (Hp _ _ Hq), Hq.
Qed.

Lemma settle_status_settled p o q s :
  status_at q s ≠ Pending → status_at q (settle p o s) = status_at q s.
Proof.
  intros H. destruct (status_at_settled q s H) as (pr&Hq&_&Hst).
  unfold status_at. by rewrite (settle_settled p o q pr s Hq Hst), Hq.
Qed.








Lemma construct_stage id opt s :
  let p := length (promises s) in
  init_stage id opt (layerPresets_of id s) p (construct id opt s) ∧
  presets_ (construct id opt s) !! id = Some p ∧
  status_at p (construct id opt s) = Pending ∧
  promises (construct id opt s) !! S p = Some (mkPromise (Loader id) Pending).
Proof.
  intros p. unfold construct, new_promise. cbv beta iota zeta.
  set (s2 := alloc (Loader id) (alloc Chained s)).
  assert (promises s2 !! S p = Some (mkPromise (Loader id) Pending)) as Hf.
  { replace (S p) with (length (promises (alloc Chained s)))
      by by rewrite length_alloc.
    apply lookup_alloc_new. }
  assert (promises s2 !! p = Some (mkPromise Chained Pending)) as Hp.
  { unfold s2. rewrite lookup_alloc_old by (rewrite length_alloc; lia).
    apply lookup_alloc_new. }
  assert (status_at (S p) s2 = Pending) as Hst by by rewrite (status_at_lookup _ _ _ _ Hf).
  replace (length (promises (alloc Chained s))) with (S p) by by rewrite length_alloc.
  fold s2. unfold subscribe. rewrite Hst. cbn -[s2].
  repeat split.
  - by exists Pending.
  - left. split; [done|]. apply elem_of_app. right. by left.
  - by rewrite lookup_insert_eq.
  - by apply (status_at_lookup _ Chained).
  - done.
Qed.








(** ** The cache entry of a type *)

Lemma cache_own key p s : presets_ s !! key = Some p → cache key s = Future p.
Proof. intros H. unfold cache. by rewrite H. Qed.

Lemma cache_future key p s : cache key s = Future p → presets_ s !! key = Some p.
Proof.
  unfold cache. destruct (presets_ s !! key); [congruence|].
  by repeat case_match.
Qed.

Lemma cache_none key s : cache key s = NoEntry → presets_ s !! key = None.
Proof. unfold cache. by destruct (presets_ s !! key). Qed.

(** Lines 64-78 and the skipped call: the cache is not written by the call. *)
Lemma registerPreset_merge_cache type url s :
  cache type s ≠ NoEntry ∨ is_requested url s = true →
  presets_ (registerPreset type url s).2 = presets_ s ∧
  constructed (registerPreset type url s).2 = constructed s.
Proof.
  intros H. unfold registerPreset, new_promise.
  destruct (is_requested url s); cbn [negb]; [done|].
  destruct H as [H|H]; [|done].
  destruct (cache type s) as [|p|name]; [done|..]; cbv beta iota zeta; cbn [snd]; [|done].
  by destruct (subscribe_same p (MergeOuter type url (length (promises s)))
                 (alloc Chained (with_requested_ (λ m, <[url:=true]> m) s)))
    as (?&_&_&_&_&_&?).
Qed.

Lemma registerPreset_fresh_cache type url s :
  cache type s = NoEntry → is_requested url s = false →
  registerPreset type url s = (Return VUndefined, (registerPreset type url s).2) ∧
  presets_ (registerPreset type url s).2 !! type = Some (S (length (promises s))) ∧
  constructed (registerPreset type url s).2 =
    constructed s ++ [(type, S (length (promises s)))].
Proof.
  intros Hp Hr. unfold registerPreset, new_promise. rewrite Hp, Hr.
  cbv beta iota zeta. cbn [negb snd]. rewrite length_alloc. cbn [presets_ with_presets_].
  rewrite lookup_insert_eq. split; [done|]. split; [done|].
  cbn [constructed with_presets_ with_constructed]. f_equal.
  by destruct (subscribe_same (length (promises s)) (LoadFirst (S (length (promises s))))
                 (alloc Chained (alloc (Request url) (with_requested_ (λ m, <[url:=true]> m) s))))
    as (_&_&_&_&_&_&?).
Qed.

Lemma body_failure_cache cb o s :
  load_failure cb o → presets_ (body cb o s).2 = presets_ s.
Proof.
  destruct cb as [ch|t u ch|t orig n|id opt l p], o; cbn [load_failure body handleLoadError];
    try done.
  - by intros [[e ->]|(presets&e&->&->)].
Qed.

Lemma tick_status_settled q s :
  status_at q s ≠ Pending → status_at q (tick s) = status_at q s.
Proof.
  intros Hq. unfold tick. destruct (jobs s) as [|[cb o] rest]; [done|].
  unfold run_job. pose proof (keeps_body cb o (with_jobs (λ _, rest) s)) as Hk.
  destruct (body cb o (with_jobs (λ _, rest) s)) as [c s1]. cbn [snd] in Hk.
  assert (status_at q s1 = status_at q s) as H1
    by by apply (keeps_status_settled q (with_jobs (λ _, rest) s)).
  rewrite settle_status_settled; [done|]. by rewrite H1.
Qed.

(** C5, as the code has it.  When the lookup of line 58 finds something for
    the type, or the URL was requested before, registerPreset leaves the
    cache alone, and so does every callback that meets a failed load: a
    rejected promise, a body that does not parse, or a merge that throws.  On
    a rejected promise the error handler logs one message.  Settled promises
    keep their value, so the entry still shows what it showed.  When the
    lookup finds nothing and the URL was not requested before, registerPreset
    stores a new future at once, and a rejected request fulfils that future
    with undefined. *)
Theorem failed_load_keeps_cache_entry :
  (∀ type url s, cache type s ≠ NoEntry ∨ is_requested url s = true →
     presets_ (registerPreset type url s).2 = presets_ s) ∧
  (∀ cb o rest s, jobs s = (cb, o) :: rest → load_failure cb o →
     presets_ (tick s) = presets_ s ∧
     ∀ q, status_at q s ≠ Pending → status_at q (tick s) = status_at q s) ∧
  (∀ cb reason rest s, jobs s = (cb, Reject reason) :: rest → of_registerPreset cb →
     logged (tick s) = logged (handleLoadError reason s).2 ∧
     length (logged (tick s)) = S (length (logged s))) ∧
  (∀ type url s, cache type s = NoEntry → is_requested url s = false →
     presets_ (registerPreset type url s).2 !! type = Some (S (length (promises s)))) ∧
  (∀ child reason rest s, jobs s = (LoadFirst child, Reject reason) :: rest →
     promises s !! child = Some (mkPromise Chained Pending) →
     status_at child (tick s) = Fulfilled VUndefined).
Proof.
  split; [|split; [|split; [|split]]].
  - intros type url s H. by apply registerPreset_merge_cache.
  - intros cb o rest s Hj Hfail. split; [|intros q; apply tick_status_settled].
    unfold tick. rewrite Hj. unfold run_job.
    pose proof (body_failure_cache cb o (with_jobs (λ _, rest) s) Hfail) as H.
    destruct (body cb o (with_jobs (λ _, rest) s)) as [c s1]. cbn [snd] in H.
    by destruct (settle_same (target cb) (of_completion c) s1) as (->&_).
  - intros cb reason rest s Hj Hcb. unfold tick. rewrite Hj. unfold run_job.
    assert (body cb (Reject reason) (with_jobs (λ _, rest) s) =
            handleLoadError reason (with_jobs (λ _, rest) s)) as ->
      by by destruct cb.
    cbn [handleLoadError].
    destruct (settle_same (target cb) (of_completion (Return VUndefined))
      (with_logged (λ l, l ++ ["Failed to load presets. Reason: " +:+
         match reason with VString str => str | VError message => message
         | _ => "Unspecified error." end]) (with_jobs (λ _, rest) s)))
      as (_&_&_&_&->&_).
    cbn. rewrite length_app. cbn. split; [done|lia].
  - intros type url s Hp Hr. by apply registerPreset_fresh_cache.
  - intros child reason rest s Hj Hp. unfold tick. rewrite Hj. unfold run_job.
    cbn [body handleLoadError target of_completion].
    apply (status_at_lookup _ Chained).
    by apply (settle_pending child (Resolve VUndefined) Chained).
Qed.

Lemma run_job_inner_success type orig n result presets merged s :
  JSON_parse result = Return presets → merge presets orig = Return merged →
  presets_ (run_job (MergeInner type orig n) (Resolve result) s) !! type = Some n.
Proof.
  intros Hparse Hmerge. unfold run_job. cbn [body]. rewrite Hparse, Hmerge.
  cbn [target of_completion].
  match goal with |- presets_ (settle ?p ?o ?s) !! _ = _ =>
    destruct (settle_same p o s) as (->&_) end.
  cbn. by rewrite lookup_insert_eq.
Qed.

Lemma getPresets_cached id opt p s :
  presets_ s !! id = Some p → getPresets id opt s = (Gives (Future p), s).
Proof. intros H. unfold getPresets. by rewrite (cache_own _ _ _ H). Qed.

Lemma construct_cache id opt k s :
  presets_ (construct id opt s) !! k =
  if decide (id = k) then Some (length (promises s)) else presets_ s !! k.
Proof.
  unfold construct, new_promise. cbv beta iota zeta.
  cbn [presets_ with_presets_ with_constructed]. rewrite lookup_insert.
  destruct (decide (id = k)); [done|].
  by destruct (subscribe_same (length (promises (alloc Chained s)))
                 (InitDone id opt (layerPresets_of id s) (length (promises s)))
                 (alloc (Loader id) (alloc Chained s))) as (->&_).
Qed.

(** The steps that can change the cache entry of a key. *)
Lemma step_stores e key s :
  presets_ (step e s) !! key ≠ presets_ s !! key → stores e key s.
Proof.
  destruct e as [type url|id opt|id opt|id presets|p o|]; cbn [step stores]; intros Hne.
  - assert (cache type s = NoEntry ∨ cache type s ≠ NoEntry) as [Hc|Hc]
      by (destruct (cache type s); auto);
      [destruct (is_requested url s) eqn:Hr|].
    + destruct (registerPreset_merge_cache type url s) as [Heq _]; [by right|].
      by rewrite Heq in Hne.
    + destruct (decide (type = key)) as [->|Hk]; [done|]. exfalso. apply Hne.
      unfold registerPreset, new_promise. rewrite Hc, Hr. cbv beta iota zeta.
      cbn [negb snd presets_ with_presets_ with_constructed].
      rewrite lookup_insert_ne by done.
      match goal with |- context [presets_ (subscribe ?p ?cb ?s0)] =>
        by destruct (subscribe_same p cb s0) as (->&_) end.
    + destruct (registerPreset_merge_cache type url s) as [Heq _]; [by left|].
      by rewrite Heq in Hne.
  - rewrite getPresets_state in Hne.
    destruct (cache id s) eqn:Hc; try done.
    destruct (initPreset_cases id opt s) as [Heq|(e&_&Heq)]; rewrite Heq in Hne; [|done].
    cbn [snd] in Hne. rewrite construct_cache in Hne.
    destruct (decide (id = key)) as [->|]; done.
  - destruct (initPreset_cases id opt s) as [Heq|(e&_&Heq)]; rewrite Heq in Hne; [|done].
    cbn [snd] in Hne. rewrite construct_cache in Hne.
    by destruct (decide (id = key)).
  - by destruct (applyDefaults_runtime id presets s) as (_&_&_&_&Heq); rewrite Heq in Hne.
  - by destruct (deliver_same p o s) as (Heq&_); rewrite Heq in Hne.
  - assert (presets_ (tick s) !! key ≠ presets_ s !! key) as Hne' by done.
    revert Hne. unfold tick at 1. destruct (jobs s) as [|[cb o] rest] eqn:Hj; [done|].
    unfold run_job.
    destruct (body cb o (with_jobs (λ _, rest) s)) as [c s1] eqn:Hbody.
    destruct (settle_same (target cb) (of_completion c) s1) as (->&_).
    intros Hne.
    destruct cb as [ch|t u ch|t orig n|id opt l p], o; cbn [body handleLoadError] in Hbody.
    all: try (injection Hbody as <- <-; done).
    + exfalso. apply Hne. revert Hbody. unfold new_promise. cbv beta iota zeta.
      intros [= <- <-]. cbn [presets_ with_constructed].
      match goal with |- context [presets_ (subscribe ?p ?cb ?s0)] =>
        by destruct (subscribe_same p cb s0) as (->&_) end.
    + destruct (JSON_parse v) as [presets|e] eqn:Hparse; [|injection Hbody as <- <-; done].
      destruct (merge presets orig) as [merged|e] eqn:Hmerge;
        [|injection Hbody as <- <-; done].
      injection Hbody as <- <-. cbn [presets_ with_presets_] in Hne.
      destruct (decide (t = key)) as [->|Hk]; [|by rewrite lookup_insert_ne in Hne].
      exists orig, n, v, rest, presets, merged. repeat split; try done.
      unfold tick. rewrite Hj.
      by apply (run_job_inner_success key orig n v presets merged).
    + exfalso. apply Hne. injection Hbody as <- <-. destruct opt; [|done].
      by destruct (applyDefaults_runtime id (as_presets_arg l) (with_jobs (λ _, rest) s))
        as (_&_&_&_&->).
    + exfalso. apply Hne. injection Hbody as <- <-. destruct opt; [|done].
      by destruct (applyDefaults_runtime id (as_presets_arg l) (with_jobs (λ _, rest) s))
        as (_&_&_&_&->).
Qed.

(** C8, as the code has it.  After registerPreset for a type for which the
    lookup of line 58 finds nothing, and a URL not yet requested, getPresets
    returns the future that call constructed.  After registerPreset for a type
    that has a future in the cache, getPresets still returns the earlier
    future.  The entry is replaced by the future of the later registration
    when the success callback of the later request runs on a body that parses
    and merges, and a step changes the entry of a key only if it is such a
    callback, a call of initPreset, or a call of registerPreset or getPresets
    whose lookup finds nothing. *)
Theorem registerPreset_cache_entry (type url : string) (opt : bool) (s : state) :
  (cache type s = NoEntry → is_requested url s = false →
     (getPresets type opt (registerPreset type url s).2).1 =
       Gives (Future (S (length (promises s)))) ∧
     newest type (registerPreset type url s).2 = Some (S (length (promises s)))) ∧
  (∀ p, presets_ s !! type = Some p →
     (getPresets type opt (registerPreset type url s).2).1 = Gives (Future p) ∧
     constructed (registerPreset type url s).2 = constructed s) ∧
  (∀ orig n result presets merged,
     JSON_parse result = Return presets → merge presets orig = Return merged →
     let s' := run_job (MergeInner type orig n) (Resolve result) s in
     (getPresets type opt s').1 = Gives (Future n)) ∧
  (∀ e, presets_ (step e s) !! type ≠ presets_ s !! type → stores e type s).
Proof.
  split; [|split; [|split]].
  - intros Hp Hr. destruct (registerPreset_fresh_cache type url s Hp Hr) as (_&Hc&Hn).
    split.
    + by rewrite (getPresets_cached _ _ _ _ Hc).
    + unfold newest. rewrite Hn, List.filter_app, fmap_app. cbn.
      rewrite String.eqb_refl. cbn. by rewrite last_snoc.
  - intros p Hp.
    destruct (registerPreset_merge_cache type url s) as [Hc Hn].
    { left. by rewrite (cache_own _ _ _ Hp). }
    split; [|done]. rewrite <- Hc in Hp. by rewrite (getPresets_cached _ _ _ _ Hp).
  - intros orig n result presets merged Hparse Hmerge s'.
    pose proof (run_job_inner_success type orig n result presets merged s Hparse Hmerge) as H.
    fold s' in H. by rewrite (getPresets_cached _ _ _ _ H).
  - intros e. apply step_stores.
Qed.

(** ** initPreset and the stored presets *)

Lemma layerPresets_of_empty id s :
  stored_presets id s = Stored [] → layerPresets_of id s = Stored [].
Proof. intros H. unfold layerPresets_of. by rewrite H. Qed.

Lemma layerPresets_of_nonempty id l s :
  stored_presets id s = Stored l → l ≠ [] →
  layerPresets_of id s = Stored (l ++ [restore_default]).
Proof.
  intros H Hl. unfold layerPresets_of. rewrite H. by destruct l.
Qed.

Lemma stored_presets_key id k s :
  filterKey_of id s = KeyString k →
  stored_presets id s =
  match default ∅ (PRESETS (settings s)) !! k with
  | Some l => Stored l
  | None => if inherited k then Inherited k else Stored []
  end.
Proof. intros H. unfold stored_presets. by rewrite H. Qed.

Lemma filterKey_of_absent id s :
  layers s !! id = None → filterKey_of id s = KeyUndefined.
Proof. intros H. unfold filterKey_of. by rewrite H. Qed.

Lemma stored_presets_no_key id s :
  filterKey_of id s = KeyUndefined →
  stored_presets id s = Stored (default [] (default ∅ (PRESETS (settings s)) !! "undefined")).
Proof.
  intros H. unfold stored_presets. rewrite H. cbn [property_name].
  by destruct (default ∅ (PRESETS (settings s)) !! "undefined").
Qed.

(** ** Validity of the handles *)

Lemma valid_fresh st ly : valid (fresh st ly).
Proof.
  split.
  - intros q cb H. by apply elem_of_nil in H.
  - intros t p H. change (presets_ (fresh st ly)) with (∅ : gmap string nat) in H.
    by rewrite lookup_empty in H.
Qed.


Lemma valid_alloc o s : valid s → valid (alloc o s).
Proof.
  intros [Hw Hc]. split.
  - intros q cb H. rewrite length_alloc. specialize (Hw q cb H). lia.
  - intros t p H. rewrite length_alloc. specialize (Hc t p H). lia.
Qed.

Lemma valid_subscribe p cb s :
  valid s → p < length (promises s) → valid (subscribe p cb s).
Proof.
  intros [Hw Hc] Hp. unfold subscribe. destruct (status_at p s); split; cbn; try done.
  intros q cb' [H|H]%elem_of_app; [by eapply Hw|].
  apply list_elem_of_singleton in H. by injection H as -> ->.
Qed.

Lemma release_subset p o ws w : w ∈ (release p o ws).2 → w ∈ ws.
Proof.
  induction ws as [|[q cb] ws IH]; [done|].
  cbn [release]. destruct (release p o ws) as [ready rest]. cbn [snd] in *.
  destruct (q =? p); cbn [snd].
  - intros H. right. auto.
  - intros [->|H]%elem_of_cons; [by left|right; auto].
Qed.

Lemma settle_length p o s : length (promises (settle p o s)) = length (promises s).
Proof.
  unfold settle. destruct (promises s !! p) as [[src []]|]; try done.
  destruct (release p o (waiting s)). cbn. apply length_insert.
Qed.

Lemma valid_settle p o s : valid s → valid (settle p o s).
Proof.
  intros [Hw Hc]. split.
  - intros q cb H. rewrite settle_length. apply (Hw q cb).
    revert H. unfold settle. destruct (promises s !! p) as [[src []]|]; try done.
    pose proof (release_subset p o (waiting s) (q, cb)) as Hsub.
    destruct (release p o (waiting s)). cbn in *. auto.
  - intros t q. rewrite settle_length.
    destruct (settle_same p o s) as (->&_). apply Hc.
Qed.

Lemma valid_cache type p s :
  valid s → p < length (promises s) →
  valid (with_presets_ (λ m, <[type := p]> m) s).
Proof.
  intros [Hw Hc] Hp. split; [done|]. intros t q. cbn.
  rewrite lookup_insert. destruct (decide (type = t)); [congruence|apply Hc].
Qed.

Lemma valid_manager s s' :
  promises s' = promises s → waiting s' = waiting s → presets_ s' = presets_ s →
  valid s → valid s'.
Proof. unfold valid. by intros -> -> ->. Qed.

Lemma valid_registerPreset type url s : valid s → valid (registerPreset type url s).2.
Proof.
  intros Hv. unfold registerPreset, new_promise.
  destruct (negb (is_requested url s)); [|done].
  destruct (cache type s) as [|p|name] eqn:Hp; cbv beta iota zeta; cbn [snd].
  - apply valid_cache.
    + eapply valid_manager; [reflexivity..|]. apply valid_subscribe.
      * do 2 apply valid_alloc. by apply (valid_manager s).
      * rewrite !length_alloc. cbn. lia.
    + cbn [with_constructed promises]. rewrite subscribe_promises, !length_alloc. lia.
  - apply valid_subscribe.
    + apply valid_alloc. by apply (valid_manager s).
    + rewrite length_alloc. destruct Hv as [_ Hc].
      specialize (Hc type p (cache_future _ _ _ Hp)). cbn. lia.
  - by apply (valid_manager s).
Qed.

Lemma valid_construct id opt s : valid s → valid (construct id opt s).
Proof.
  intros Hv. unfold construct, new_promise. cbv beta iota zeta.
  apply valid_cache.
  - eapply valid_manager; [reflexivity..|]. apply valid_subscribe.
    + by do 2 apply valid_alloc.
    + rewrite !length_alloc. lia.
  - cbn [with_constructed promises]. rewrite subscribe_promises, !length_alloc. lia.
Qed.

Lemma valid_initPreset id opt s : valid s → valid (initPreset id opt s).2.
Proof.
  intros Hv.
  destruct (initPreset_cases id opt s) as [->|(e&_&->)]; [by apply valid_construct|done].
Qed.

Lemma valid_applyDefaults id presets s : valid s → valid (applyDefaults id presets s).
Proof.
  destruct (applyDefaults_runtime id presets s) as (Hp&Hw&_&_&Hc).
  by apply valid_manager.
Qed.

Lemma valid_body cb o s :
  valid s → target cb < length (promises s) → valid (body cb o s).2.
Proof.
  intros Hv Ht.
  destruct cb as [ch|t u ch|t orig n|id opt l p], o; cbn [body handleLoadError].
  all: try (repeat case_match; by apply (valid_manager s)).
  - unfold new_promise. cbv beta iota zeta. cbn [snd].
    eapply valid_manager; [reflexivity..|]. apply valid_subscribe.
    + by do 2 apply valid_alloc.
    + rewrite !length_alloc. lia.
  - destruct (JSON_parse v) as [presets|e]; cbn [snd]; [|done].
    destruct (merge presets orig); cbn [snd]; [by apply valid_cache|done].
  - destruct opt; cbn [snd]; [by apply valid_applyDefaults|done].
  - destruct opt; cbn [snd]; [by apply valid_applyDefaults|done].
Qed.

Lemma valid_step e s : wf s → valid s → valid (step e s).
Proof.
  intros Hwf Hv. destruct e; cbn [step].
  - by apply valid_registerPreset.
  - rewrite getPresets_state. destruct (cache id s); try done.
    by apply valid_initPreset.
  - by apply valid_initPreset.
  - by apply valid_applyDefaults.
  - unfold deliver. destruct (promises s !! p) as [[[] ?]|]; try done.
    all: by apply valid_settle.
  - unfold tick. destruct (jobs s) as [|[cb o] rest] eqn:Hj; [done|].
    destruct (wf_pop cb o rest s Hwf Hj) as (_&_&Hp).
    unfold run_job.
    pose proof (valid_body cb o (with_jobs (λ _, rest) s)) as Hb.
    destruct (body cb o (with_jobs (λ _, rest) s)) as [c s1]. cbn [snd] in Hb.
    apply valid_settle, Hb; [by apply (valid_manager s)|].
    by eapply lookup_lt_Some.
Qed.

Lemma valid_run evs s : wf s → valid s → valid (run evs s).
Proof.
  revert s. induction evs as [|e evs IH]; intros s Hwf Hv; [done|].
  cbn. apply IH; [by apply wf_step|by apply valid_step].
Qed.

(** ** Following a run step by step *)

Lemma runtime_inv s pm rq Ps Ws Js :
  runtime s = (pm, rq, Ps, Ws, Js) →
  presets_ s = pm ∧ requested_ s = rq ∧ promises s = Ps ∧ waiting s = Ws ∧ jobs s = Js.
Proof. unfold runtime. intros H. by injection H. Qed.

Lemma lookup_app_plus {A} (l1 l2 : list A) k : (l1 ++ l2) !! (length l1 + k) = l2 !! k.
Proof. rewrite lookup_app_r by lia. f_equal. lia. Qed.

Lemma release_app p o ws1 ws2 :
  release p o (ws1 ++ ws2) =
  ((release p o ws1).1 ++ (release p o ws2).1, (release p o ws1).2 ++ (release p o ws2).2).
Proof.
  induction ws1 as [|[q cb] ws1 IH]; cbn [release app].
  - by destruct (release p o ws2).
  - rewrite IH. destruct (release p o ws1), (release p o ws2). cbn.
    by destruct (q =? p).
Qed.

Lemma release_none p o ws :
  (∀ q cb, (q, cb) ∈ ws → q ≠ p) → release p o ws = ([], ws).
Proof.
  induction ws as [|[q cb] ws IH]; intros H; [done|].
  cbn [release]. rewrite IH by (intros q' cb' Hin; apply (H q' cb'); by right).
  assert (q ≠ p) as Hne by (apply (H q cb); by left).
  apply Nat.eqb_neq in Hne. by rewrite Hne.
Qed.

Lemma release_tail n p o ws extra :
  (∀ q cb, (q, cb) ∈ ws → q < n) → n ≤ p →
  release p o (ws ++ extra) = ((release p o extra).1, ws ++ (release p o extra).2).
Proof.
  intros Hws Hp. rewrite release_app, release_none; [done|].
  intros q cb Hin. specialize (Hws q cb Hin). lia.
Qed.

Lemma settle_runtime p o src s pm rq Ps Ws Js :
  runtime s = (pm, rq, Ps, Ws, Js) →
  Ps !! p = Some (mkPromise src Pending) →
  runtime (settle p o s) =
    (pm, rq, <[p := mkPromise src (settled o)]> Ps,
     (release p o Ws).2, Js ++ (release p o Ws).1).
Proof.
  intros (<-&<-&<-&<-&<-)%runtime_inv Hp. unfold settle. rewrite Hp.
  by destruct (release p o (waiting s)).
Qed.

Lemma deliver_runtime p o src s pm rq Ps Ws Js :
  runtime s = (pm, rq, Ps, Ws, Js) →
  Ps !! p = Some (mkPromise src Pending) → src ≠ Chained →
  runtime (deliver p o s) =
    (pm, rq, <[p := mkPromise src (settled o)]> Ps,
     (release p o Ws).2, Js ++ (release p o Ws).1).
Proof.
  intros Hr Hp Hsrc. pose proof Hr as (_&_&<-&_)%runtime_inv.
  unfold deliver. rewrite Hp.
  destruct src; [by apply settle_runtime..|done].
Qed.

Lemma subscribe_runtime_pending p cb src s pm rq Ps Ws Js :
  runtime s = (pm, rq, Ps, Ws, Js) →
  Ps !! p = Some (mkPromise src Pending) →
  runtime (subscribe p cb s) = (pm, rq, Ps, Ws ++ [(p, cb)], Js).
Proof.
  intros (<-&<-&<-&<-&<-)%runtime_inv Hp. unfold subscribe.
  by rewrite (status_at_lookup _ _ _ _ Hp).
Qed.

Lemma subscribe_runtime_fulfilled p cb src v s pm rq Ps Ws Js :
  runtime s = (pm, rq, Ps, Ws, Js) →
  Ps !! p = Some (mkPromise src (Fulfilled v)) →
  runtime (subscribe p cb s) = (pm, rq, Ps, Ws, Js ++ [(cb, Resolve v)]).
Proof.
  intros (<-&<-&<-&<-&<-)%runtime_inv Hp. unfold subscribe.
  by rewrite (status_at_lookup _ _ _ _ Hp).
Qed.

Lemma registerPreset_runtime_first type url s pm rq Ps Ws Js :
  runtime s = (pm, rq, Ps, Ws, Js) →
  cache type s = NoEntry → is_requested url s = false →
  runtime (registerPreset type url s).2 =
    (<[type := length Ps + 1]> pm, <[url := true]> rq,
     Ps ++ [mkPromise (Request url) Pending; mkPromise Chained Pending],
     Ws ++ [(length Ps, LoadFirst (length Ps + 1))], Js).
Proof.
  intros Hr Hp Hu. pose proof Hr as (<-&<-&<-&<-&<-)%runtime_inv.
  unfold registerPreset, new_promise. rewrite Hp, Hu. cbv beta iota zeta.
  rewrite length_alloc. cbn [negb snd].
  replace (S (length (promises (with_requested_ (λ m, <[url:=true]> m) s))))
    with (length (promises s) + 1) by (cbn; lia).
  set (s2 := alloc Chained (alloc (Request url) (with_requested_ (λ m, <[url:=true]> m) s))).
  assert (runtime s2 = (presets_ s, <[url:=true]> (requested_ s),
            (promises s ++ [mkPromise (Request url) Pending]) ++ [mkPromise Chained Pending],
            waiting s, jobs s)) as H2 by done.
  eapply (subscribe_runtime_pending (length (promises s))
            (LoadFirst (length (promises s) + 1))) in H2.
  2:{ rewrite <- app_assoc. by apply list_lookup_middle. }
  apply runtime_inv in H2 as (H2a&H2b&H2c&H2d&H2e).
  unfold runtime. cbn [presets_ requested_ promises waiting jobs with_presets_ with_constructed].
  change (promises (with_requested_ (λ m, <[url:=true]> m) s)) with (promises s).
  by rewrite H2a, H2b, H2c, H2d, H2e, <- app_assoc.
Qed.

Lemma registerPreset_runtime_fulfilled type url p src v s pm rq Ps Ws Js :
  runtime s = (pm, rq, Ps, Ws, Js) →
  pm !! type = Some p → is_requested url s = false →
  Ps !! p = Some (mkPromise src (Fulfilled v)) →
  runtime (registerPreset type url s).2 =
    (pm, <[url := true]> rq, Ps ++ [mkPromise Chained Pending], Ws,
     Js ++ [(MergeOuter type url (length Ps), Resolve v)]).
Proof.
  intros Hr Hp Hu Hv. pose proof Hr as (<-&<-&<-&<-&<-)%runtime_inv.
  unfold registerPreset, new_promise. rewrite (cache_own _ _ _ Hp), Hu.
  cbv beta iota zeta. cbn [negb snd].
  apply (subscribe_runtime_fulfilled _ _ src); [done|].
  cbn. by apply lookup_app_l_Some.
Qed.

Lemma registerPreset_runtime_pending type url p src s pm rq Ps Ws Js :
  runtime s = (pm, rq, Ps, Ws, Js) →
  pm !! type = Some p → is_requested url s = false →
  Ps !! p = Some (mkPromise src Pending) →
  runtime (registerPreset type url s).2 =
    (pm, <[url := true]> rq, Ps ++ [mkPromise Chained Pending],
     Ws ++ [(p, MergeOuter type url (length Ps))], Js).
Proof.
  intros Hr Hp Hu Hv. pose proof Hr as (<-&<-&<-&<-&<-)%runtime_inv.
  unfold registerPreset, new_promise. rewrite (cache_own _ _ _ Hp), Hu.
  cbv beta iota zeta. cbn [negb snd].
  apply (subscribe_runtime_pending _ _ src); [done|].
  cbn. by apply lookup_app_l_Some.
Qed.

Lemma tick_runtime_first c text presets src rest s pm rq Ps Ws :
  runtime s = (pm, rq, Ps, Ws, (LoadFirst c, Resolve text) :: rest) →
  JSON_parse text = Return presets →
  Ps !! c = Some (mkPromise src Pending) →
  runtime (tick s) =
    (pm, rq, <[c := mkPromise src (Fulfilled presets)]> Ps,
     (release c (Resolve presets) Ws).2,
     rest ++ (release c (Resolve presets) Ws).1).
Proof.
  intros Hr Hparse Hc. pose proof Hr as (<-&<-&<-&<-&Hj)%runtime_inv.
  unfold tick. rewrite Hj. unfold run_job. cbn [body]. rewrite Hparse.
  cbn [target of_completion].
  by apply (settle_runtime c (Resolve presets) src).
Qed.

Lemma tick_runtime_first_throws c text e src rest s pm rq Ps Ws :
  runtime s = (pm, rq, Ps, Ws, (LoadFirst c, Resolve text) :: rest) →
  JSON_parse text = Throw e →
  Ps !! c = Some (mkPromise src Pending) →
  runtime (tick s) =
    (pm, rq, <[c := mkPromise src (Rejected e)]> Ps,
     (release c (Reject e) Ws).2,
     rest ++ (release c (Reject e) Ws).1).
Proof.
  intros Hr Hparse Hc. pose proof Hr as (<-&<-&<-&<-&Hj)%runtime_inv.
  unfold tick. rewrite Hj. unfold run_job. cbn [body]. rewrite Hparse.
  cbn [target of_completion].
  by apply (settle_runtime c (Reject e) src).
Qed.

Lemma tick_runtime_outer type url c v src rest s pm rq Ps Ws :
  runtime s = (pm, rq, Ps, Ws, (MergeOuter type url c, Resolve v) :: rest) →
  Ps !! c = Some (mkPromise src Pending) →
  let Ws' := Ws ++ [(length Ps, MergeInner type v (length Ps + 1))] in
  runtime (tick s) =
    (pm, rq,
     <[c := mkPromise src (Fulfilled VUndefined)]>
       (Ps ++ [mkPromise (Request url) Pending; mkPromise Chained Pending]),
     (release c (Resolve VUndefined) Ws').2,
     rest ++ (release c (Resolve VUndefined) Ws').1).
Proof.
  intros Hr Hc Ws'. pose proof Hr as (<-&<-&<-&<-&Hj)%runtime_inv.
  unfold tick. rewrite Hj. unfold run_job. cbn [body]. unfold new_promise.
  cbv beta iota zeta. cbn [target of_completion]. rewrite length_alloc.
  set (s0 := with_jobs (λ _, rest) s).
  replace (S (length (promises s0))) with (length (promises s) + 1) by (cbn; lia).
  change (length (promises s0)) with (length (promises s)).
  assert (runtime (alloc Chained (alloc (Request url) s0)) =
          (presets_ s, requested_ s,
           (promises s ++ [mkPromise (Request url) Pending]) ++ [mkPromise Chained Pending],
           waiting s, rest)) as H2 by done.
  eapply (subscribe_runtime_pending (length (promises s))
            (MergeInner type v (length (promises s) + 1))) in H2.
  2:{ rewrite <- app_assoc. by apply list_lookup_middle. }
  rewrite <- app_assoc in H2. cbn [app] in H2.
  apply (settle_runtime c (Resolve VUndefined) src).
  - apply runtime_inv in H2 as (H2a&H2b&H2c&H2d&H2e). unfold runtime.
    cbn [presets_ requested_ promises waiting jobs with_constructed].
    by rewrite H2a, H2b, H2c, H2d, H2e.
  - by apply lookup_app_l_Some.
Qed.

Lemma tick_runtime_inner type orig c text presets merged src rest s pm rq Ps Ws :
  runtime s = (pm, rq, Ps, Ws, (MergeInner type orig c, Resolve text) :: rest) →
  JSON_parse text = Return presets →
  merge presets orig = Return merged →
  Ps !! c = Some (mkPromise src Pending) →
  runtime (tick s) =
    (<[type := c]> pm, rq, <[c := mkPromise src (Fulfilled merged)]> Ps,
     (release c (Resolve merged) Ws).2,
     rest ++ (release c (Resolve merged) Ws).1).
Proof.
  intros Hr Hparse Hmerge Hc. pose proof Hr as (<-&<-&<-&<-&Hj)%runtime_inv.
  unfold tick. rewrite Hj. unfold run_job. cbn [body]. rewrite Hparse, Hmerge.
  cbn [target of_completion].
  by apply (settle_runtime c (Resolve merged) src).
Qed.

Lemma tick_runtime_inner_throws type orig c text presets e src rest s pm rq Ps Ws :
  runtime s = (pm, rq, Ps, Ws, (MergeInner type orig c, Resolve text) :: rest) →
  JSON_parse text = Return presets →
  merge presets orig = Throw e →
  Ps !! c = Some (mkPromise src Pending) →
  runtime (tick s) =
    (pm, rq, <[c := mkPromise src (Rejected e)]> Ps,
     (release c (Reject e) Ws).2,
     rest ++ (release c (Reject e) Ws).1).
Proof.
  intros Hr Hparse Hmerge Hc. pose proof Hr as (<-&<-&<-&<-&Hj)%runtime_inv.
  unfold tick. rewrite Hj. unfold run_job. cbn [body]. rewrite Hparse, Hmerge.
  cbn [target of_completion].
  by apply (settle_runtime c (Reject e) src).
Qed.

(** What line 70-72 make of two arrays, and of anything falsy. *)
Lemma merge_arrays items more :
  merge (VArray items) (VArray more) = Return (VArray (items ++ more)).
Proof. done. Qed.

Lemma merge_array_falsy items orig :
  truthy orig = false → merge (VArray items) orig = Return (VArray items).
Proof. intros H. unfold merge. by rewrite H. Qed.

Lemma merge_falsy presets orig :
  truthy presets = false → merge presets orig = Return presets.
Proof. intros H. unfold merge. by rewrite H. Qed.

Ltac decide_eqb H :=
  repeat match type of H with
  | context [?a =? ?b] =>
      first [ replace (a =? b) with true in H by (symmetry; apply Nat.eqb_eq; lia)
            | replace (a =? b) with false in H by (symmetry; apply Nat.eqb_neq; lia) ]
  end.

Lemma insert_app_here {A} (l1 l2 : list A) x :
  <[length l1 := x]> (l1 ++ l2) = l1 ++ <[0 := x]> l2.
Proof. rewrite <- (Nat.add_0_r (length l1)) at 1. apply insert_app_r. Qed.

Ltac normalise H :=
  repeat rewrite length_app in H; cbn [length] in H;
  repeat rewrite <- Nat.add_assoc in H; cbn [Nat.add] in H;
  repeat rewrite <- app_assoc in H; cbn [app] in H;
  repeat rewrite insert_app_r in H; repeat rewrite insert_app_here in H;
  cbn [insert list_insert] in H;
  cbn [release settled] in H; decide_eqb H; cbn [fst snd app] in H;
  rewrite ?app_nil_r in H.

Lemma merge_after_first_load (type u1 u2 : string) (text1 text2 : jsval)
    (A B : list jsval) (st : Settings) (ly : gmap string Layer) (evs0 : list event) :
  let s0 := run evs0 (fresh st ly) in
  let n := length (promises s0) in
  jobs s0 = [] →
  cache type s0 = NoEntry →
  is_requested u1 s0 = false → is_requested u2 s0 = false → u1 ≠ u2 →
  JSON_parse text1 = Return (VArray A) →
  JSON_parse text2 = Return (VArray B) →
  let s := run [CallRegisterPreset type u1; Deliver n (Resolve text1); Tick;
                CallRegisterPreset type u2; Tick;
                Deliver (n + 3) (Resolve text2); Tick] s0 in
  presets_ s !! type = Some (n + 4) ∧
  status_at (n + 4) s = Fulfilled (VArray (B ++ A)).
Proof.
  intros s0 n Hjobs Hcache Hu1 Hu2 Hne HA HB s.
  assert (wf s0) as Hwf by apply wf_run, wf_fresh.
  assert (valid s0) as [Hkeys _] by (apply valid_run; [apply wf_fresh|apply valid_fresh]).
  assert (runtime s0 = (presets_ s0, requested_ s0, promises s0 ++ [], waiting s0, [])) as H0.
  { unfold runtime. by rewrite Hjobs, app_nil_r. }
  unfold run in s. cbn [foldl step] in s. subst n.
  set (P := promises s0) in *. set (W := waiting s0) in *.
  set (pm := presets_ s0) in *. set (rq := requested_ s0) in *.
  (* registerPreset(type, u1) *)
  pose proof (registerPreset_runtime_first type u1 s0 _ _ _ _ _ H0 Hcache Hu1) as H1.
  normalise H1.
  set (s1 := (registerPreset type u1 s0).2) in *.
  (* the request for u1 succeeds *)
  pose proof (deliver_runtime (length P) (Resolve text1) (Request u1) s1 _ _ _ _ _ H1
                ltac:(by apply list_lookup_middle) ltac:(done)) as H2.
  rewrite (release_tail (length P) (length P)) in H2 by (done || lia).
  normalise H2.
  set (s2 := deliver (length P) (Resolve text1) s1) in *.
  (* its callback runs *)
  pose proof (tick_runtime_first (length P + 1) text1 (VArray A) Chained _ s2 _ _ _ _ H2 HA
                ltac:(by rewrite lookup_app_plus)) as H3.
  rewrite (release_none (length P + 1)) in H3
    by (intros q cb Hin; specialize (Hkeys q cb Hin); lia).
  normalise H3.
  set (s3 := tick s2) in *.
  (* registerPreset(type, u2) *)
  assert (is_requested u2 s3 = false) as Hu2'.
  { unfold is_requested. apply runtime_inv in H3 as (_&->&_).
    rewrite lookup_insert_ne by done. exact Hu2. }
  pose proof (registerPreset_runtime_fulfilled type u2 (length P + 1) Chained (VArray A)
                s3 _ _ _ _ _ H3 ltac:(by rewrite lookup_insert_eq) Hu2'
                ltac:(by rewrite lookup_app_plus)) as H4.
  normalise H4.
  set (s4 := (registerPreset type u2 s3).2) in *.
  (* the outer callback runs and issues the request for u2 *)
  pose proof (tick_runtime_outer type u2 (length P + 2) (VArray A) Chained _ s4 _ _ _ _ H4
                ltac:(by rewrite lookup_app_plus)) as H5.
  cbv zeta in H5.
  rewrite (release_tail (length P) (length P + 2)) in H5 by (done || lia).
  normalise H5.
  set (s5 := tick s4) in *.
  (* the request for u2 succeeds *)
  pose proof (deliver_runtime (length P + 3) (Resolve text2) (Request u2) s5 _ _ _ _ _ H5
                ltac:(by rewrite lookup_app_plus) ltac:(done)) as H6.
  rewrite (release_tail (length P) (length P + 3)) in H6 by (done || lia).
  normalise H6.
  set (s6 := deliver (length P + 3) (Resolve text2) s5) in *.
  (* the inner callback merges *)
  pose proof (tick_runtime_inner type (VArray A) (length P + 4) text2 (VArray B)
                (VArray (B ++ A)) Chained _ s6
                _ _ _ _ H6 HB (merge_arrays B A) ltac:(by rewrite lookup_app_plus)) as H7.
  rewrite (release_none (length P + 4)) in H7
    by (intros q cb Hin; specialize (Hkeys q cb Hin); lia).
  normalise H7.
  apply runtime_inv in H7 as (Hpm&_&HP&_). subst s. split.
  - by rewrite Hpm, lookup_insert_eq.
  - unfold status_at. rewrite HP. by rewrite lookup_app_plus.
Qed.

Lemma merge_before_first_load (type u1 u2 : string) (text1 text2 : jsval)
    (A B : list jsval) (st : Settings) (ly : gmap string Layer) (evs0 : list event) :
  let s0 := run evs0 (fresh st ly) in
  let n := length (promises s0) in
  jobs s0 = [] →
  cache type s0 = NoEntry →
  is_requested u1 s0 = false → is_requested u2 s0 = false → u1 ≠ u2 →
  JSON_parse text1 = Return (VArray A) →
  JSON_parse text2 = Return (VArray B) →
  let s := run [CallRegisterPreset type u1; CallRegisterPreset type u2;
                Deliver n (Resolve text1); Tick; Tick;
                Deliver (n + 3) (Resolve text2); Tick] s0 in
  presets_ s !! type = Some (n + 4) ∧
  status_at (n + 4) s = Fulfilled (VArray (B ++ A)).
Proof.
  intros s0 n Hjobs Hcache Hu1 Hu2 Hne HA HB s.
  assert (wf s0) as Hwf by apply wf_run, wf_fresh.
  assert (valid s0) as [Hkeys _] by (apply valid_run; [apply wf_fresh|apply valid_fresh]).
  assert (runtime s0 = (presets_ s0, requested_ s0, promises s0 ++ [], waiting s0, [])) as H0.
  { unfold runtime. by rewrite Hjobs, app_nil_r. }
  unfold run in s. cbn [foldl step] in s. subst n.
  set (P := promises s0) in *. set (W := waiting s0) in *.
  set (pm := presets_ s0) in *. set (rq := requested_ s0) in *.
  (* registerPreset(type, u1) *)
  pose proof (registerPreset_runtime_first type u1 s0 _ _ _ _ _ H0 Hcache Hu1) as H1.
  normalise H1.
  set (s1 := (registerPreset type u1 s0).2) in *.
  (* registerPreset(type, u2), while the first request is pending *)
  assert (is_requested u2 s1 = false) as Hu2'.
  { unfold is_requested. apply runtime_inv in H1 as (_&->&_).
    rewrite lookup_insert_ne by done. exact Hu2. }
  pose proof (registerPreset_runtime_pending type u2 (length P + 1) Chained
                s1 _ _ _ _ _ H1 ltac:(by rewrite lookup_insert_eq) Hu2'
                ltac:(by rewrite lookup_app_plus)) as H2.
  normalise H2.
  set (s2 := (registerPreset type u2 s1).2) in *.
  (* the request for u1 succeeds *)
  pose proof (deliver_runtime (length P) (Resolve text1) (Request u1) s2 _ _ _ _ _ H2
                ltac:(by apply list_lookup_middle) ltac:(done)) as H3.
  rewrite (release_tail (length P) (length P)) in H3 by (done || lia).
  normalise H3.
  set (s3 := deliver (length P) (Resolve text1) s2) in *.
  (* its callback runs and releases the outer callback *)
  pose proof (tick_runtime_first (length P + 1) text1 (VArray A) Chained _ s3 _ _ _ _ H3 HA
                ltac:(by rewrite lookup_app_plus)) as H4.
  rewrite (release_tail (length P) (length P + 1)) in H4 by (done || lia).
  normalise H4.
  set (s4 := tick s3) in *.
  (* the outer callback runs and issues the request for u2 *)
  pose proof (tick_runtime_outer type u2 (length P + 2) (VArray A) Chained _ s4 _ _ _ _ H4
                ltac:(by rewrite lookup_app_plus)) as H5.
  cbv zeta in H5.
  rewrite (release_tail (length P) (length P + 2)) in H5 by (done || lia).
  normalise H5.
  set (s5 := tick s4) in *.
  (* the request for u2 succeeds *)
  pose proof (deliver_runtime (length P + 3) (Resolve text2) (Request u2) s5 _ _ _ _ _ H5
                ltac:(by rewrite lookup_app_plus) ltac:(done)) as H6.
  rewrite (release_tail (length P) (length P + 3)) in H6 by (done || lia).
  normalise H6.
  set (s6 := deliver (length P + 3) (Resolve text2) s5) in *.
  (* the inner callback merges *)
  pose proof (tick_runtime_inner type (VArray A) (length P + 4) text2 (VArray B)
                (VArray (B ++ A)) Chained _ s6
                _ _ _ _ H6 HB (merge_arrays B A) ltac:(by rewrite lookup_app_plus)) as H7.
  rewrite (release_none (length P + 4)) in H7
    by (intros q cb Hin; specialize (Hkeys q cb Hin); lia).
  normalise H7.
  apply runtime_inv in H7 as (Hpm&_&HP&_). subst s. split.
  - by rewrite Hpm, lookup_insert_eq.
  - unfold status_at. rewrite HP. by rewrite lookup_app_plus.
Qed.

(** C1. Take a manager at rest, in any world, for which the lookups of
    lines 58 and 60 find nothing: [type] has no promise and neither URL has
    been requested, so that both registrations fetch.  Register [type] from
    [u1] and then from [u2], whether the second call comes after the first
    body has arrived or before; let the first body parse to the list [A] and
    the second to [B].  Once the callbacks have run, the future in the cache
    for [type] is fulfilled with [B ++ A]. *)
Theorem registerPreset_merges_newest_first (type u1 u2 : string)
    (text1 text2 : jsval) (A B : list jsval)
    (st : Settings) (ly : gmap string Layer) (evs0 : list event) :
  let s0 := run evs0 (fresh st ly) in
  let n := length (promises s0) in
  jobs s0 = [] →
  cache type s0 = NoEntry →
  is_requested u1 s0 = false → is_requested u2 s0 = false → u1 ≠ u2 →
  JSON_parse text1 = Return (VArray A) →
  JSON_parse text2 = Return (VArray B) →
  (let s := run [CallRegisterPreset type u1; Deliver n (Resolve text1); Tick;
                 CallRegisterPreset type u2; Tick;
                 Deliver (n + 3) (Resolve text2); Tick] s0 in
   (getPresets type false s).1 = Gives (Future (n + 4)) ∧
   status_at (n + 4) s = Fulfilled (VArray (B ++ A))) ∧
  (let s := run [CallRegisterPreset type u1; CallRegisterPreset type u2;
                 Deliver n (Resolve text1); Tick; Tick;
                 Deliver (n + 3) (Resolve text2); Tick] s0 in
   (getPresets type false s).1 = Gives (Future (n + 4)) ∧
   status_at (n + 4) s = Fulfilled (VArray (B ++ A))).
Proof.
  intros s0 n Hjobs Hcache Hu1 Hu2 Hne HA HB. split.
  - destruct (merge_after_first_load type u1 u2 text1 text2 A B st ly evs0
                Hjobs Hcache Hu1 Hu2 Hne HA HB) as [Hc Hs].
    intros s. split; [|done].
    by rewrite (getPresets_cached _ _ _ _ Hc).
  - destruct (merge_before_first_load type u1 u2 text1 text2 A B st ly evs0
                Hjobs Hcache Hu1 Hu2 Hne HA HB) as [Hc Hs].
    intros s. split; [|done].
    by rewrite (getPresets_cached _ _ _ _ Hc).
Qed.

(** ** Further properties: the cache *)

Lemma registerPreset_cache_grows type url k s :
  is_Some (presets_ s !! k) → is_Some (presets_ (registerPreset type url s).2 !! k).
Proof.
  intros Hk.
  assert (cache type s = NoEntry ∧ is_requested url s = false ∨
          (cache type s ≠ NoEntry ∨ is_requested url s = true)) as [[Hc Hr]|H].
  { destruct (cache type s), (is_requested url s); auto. }
  - unfold registerPreset, new_promise. rewrite Hc, Hr. cbv beta iota zeta.
    cbn [negb snd presets_ with_presets_]. rewrite lookup_insert.
    destruct (decide (_ = k)); [by eexists|].
    cbn [presets_ with_constructed].
    match goal with |- context [presets_ (subscribe ?p ?cb ?s0)] =>
      by destruct (subscribe_same p cb s0) as (->&_) end.
  - by destruct (registerPreset_merge_cache type url s H) as [-> _].
Qed.

Lemma initPreset_cache_grows id opt k s :
  is_Some (presets_ s !! k) → is_Some (presets_ (initPreset id opt s).2 !! k).
Proof.
  intros Hk. destruct (initPreset_cases id opt s) as [->|(e&_&->)]; [|done].
  cbn [snd]. rewrite construct_cache. by destruct (decide (id = k)).
Qed.

Lemma body_cache_grows cb o k s :
  is_Some (presets_ s !! k) → is_Some (presets_ (body cb o s).2 !! k).
Proof.
  intros Hk.
  destruct cb as [ch|t u ch|t orig n|id opt l p], o; cbn [body handleLoadError].
  all: try (repeat case_match; done).
  - unfold new_promise. cbv beta iota zeta. cbn [snd presets_ with_constructed].
    match goal with |- context [presets_ (subscribe ?p ?cb ?s0)] =>
      by destruct (subscribe_same p cb s0) as (->&_) end.
  - destruct (JSON_parse v) as [presets|e]; cbn [snd]; [|done].
    destruct (merge presets orig); cbn [snd presets_ with_presets_]; [|done].
    rewrite lookup_insert; by destruct (decide (t = k)).
  - destruct opt; cbn [snd]; [|done].
    by destruct (applyDefaults_runtime id (as_presets_arg l) s) as (_&_&_&_&->).
  - destruct opt; cbn [snd]; [|done].
    by destruct (applyDefaults_runtime id (as_presets_arg l) s) as (_&_&_&_&->).
Qed.

Lemma step_cache_grows e k s :
  is_Some (presets_ s !! k) → is_Some (presets_ (step e s) !! k).
Proof.
  intros Hk. destruct e; cbn [step].
  - by apply registerPreset_cache_grows.
  - rewrite getPresets_state. destruct (cache id s); try done.
    by apply initPreset_cache_grows.
  - by apply initPreset_cache_grows.
  - by destruct (applyDefaults_runtime id presets s) as (_&_&_&_&->).
  - by destruct (deliver_same p o s) as (->&_).
  - unfold tick. destruct (jobs s) as [|[cb o] rest]; [done|]. unfold run_job.
    pose proof (body_cache_grows cb o k (with_jobs (λ _, rest) s) Hk) as H.
    destruct (body cb o (with_jobs (λ _, rest) s)) as [c s1]. cbn [snd] in H.
    by destruct (settle_same (target cb) (of_completion c) s1) as (->&_).
Qed.

(** X1. A key that has a future in the cache keeps having one, whatever
    happens: entries are replaced but never removed.  So getPresets for that
    key never calls initPreset again: it returns the future of the entry and
    the state it was given. *)
Theorem cache_entry_is_never_removed (k : string) (evs : list event) (s : state) :
  is_Some (presets_ s !! k) →
  ∃ p, presets_ (run evs s) !! k = Some p ∧
       ∀ opt, getPresets k opt (run evs s) = (Gives (Future p), run evs s).
Proof.
  intros Hk.
  assert (is_Some (presets_ (run evs s) !! k)) as [p Hp].
  { revert s Hk. induction evs as [|e evs IH]; intros s Hk; [done|].
    cbn. by apply IH, step_cache_grows. }
  exists p. split; [done|]. intros opt. by apply getPresets_cached.
Qed.

(** X2. getPresets called twice in a row for the same id gives the same
    result both times, and the second call changes nothing, whatever its
    applyDefault flag: the flag of a later call is ignored.  What it returns
    is never undefined; and it is a future when the id has one in the cache,
    and when the lookup of line 115 finds nothing and line 146 does not
    throw. *)
Theorem getPresets_twice (id : string) (opt opt' : bool) (s : state) :
  getPresets id opt' (getPresets id opt s).2 = getPresets id opt s ∧
  (getPresets id opt s).1 ≠ Gives NoEntry ∧
  (is_Some (presets_ s !! id) ∨ (cache id s = NoEntry ∧ addDefault_throws id s = None) →
   ∃ p, (getPresets id opt s).1 = Gives (Future p)).
Proof.
  unfold getPresets at 2 3 4 5. destruct (cache id s) as [|p|name] eqn:Hc.
  - unfold initPreset. destruct (addDefault_throws id s) as [e|] eqn:Hthrow.
    + cbn [fst snd]. split; [|split; [done|]].
      * unfold getPresets, initPreset. by rewrite Hc, Hthrow.
      * intros [[p Hp]|[_ ?]]; [|done]. by rewrite (cache_own _ _ _ Hp) in Hc.
    + cbn [fst snd].
      destruct (construct_stage id opt s) as (_&Hcache&_).
      rewrite (getPresets_cached _ _ _ _ Hcache), (cache_own _ _ _ Hcache).
      split; [done|]. split; [done|]. by eexists.
  - cbn [fst snd]. unfold getPresets. rewrite Hc. split; [done|]. split; [done|].
    by eexists.
  - cbn [fst snd]. unfold getPresets. rewrite Hc. split; [done|]. split; [done|].
    intros [[p Hp]|[Hi _]]; [|done].
    by rewrite (cache_own _ _ _ Hp) in Hc.
Qed.

(** ** Further properties: applyDefaults *)

Lemma find_first {A} (f : A → bool) (l : list A) :
  match find f l with
  | Some x => ∃ l1 l2, l = l1 ++ x :: l2 ∧ f x = true ∧ Forall (λ y, f y = false) l1
  | None => Forall (λ y, f y = false) l
  end.
Proof.
  induction l as [|a l IH]; cbn; [done|].
  destruct (f a) eqn:Ha.
  - by exists [], l.
  - destruct (find f l) as [x|].
    + destruct IH as (l1&l2&->&Hx&Hl1). exists (a :: l1), l2. repeat split; [done|].
      by constructor.
    + by constructor.
Qed.

(** X4. applyDefaults with a non-empty list, for an id for which the lookup
    of line 176 finds nothing truthy, executes one command, for the first
    preset of the list whose default flag is set; when no preset has the flag
    it executes nothing.  Either way it marks the id, writes the settings
    once, and leaves the marks of the other ids and the stored preset lists
    alone. *)
Theorem applyDefaults_applies_first_default (id : string) (l : list Preset) (s : state) :
  l ≠ [] → is_applied id s = false →
  let s' := applyDefaults id (IsArray l) s in
  ((∃ l1 p l2, l = l1 ++ p :: l2 ∧ preset_default p = true ∧
               Forall (λ q, preset_default q = false) l1 ∧
               executed s' = executed s ++ [(id, p)]) ∨
   (Forall (λ q, preset_default q = false) l ∧ executed s' = executed s)) ∧
  is_applied id s' = true ∧
  set_calls (settings s') = S (set_calls (settings s)) ∧
  PRESETS (settings s') = PRESETS (settings s) ∧
  ∀ id', id' ≠ id → is_applied id' s' = is_applied id' s.
Proof.
  intros Hl Ha s'.
  assert (s' = with_settings
            (λ st, mkSettings (PRESETS st) (Some (<[id := true]> (applied_defaults s)))
                              (S (set_calls st)))
            match find preset_default l with
            | Some preset => with_executed (λ cs, cs ++ [(id, preset)]) s
            | None => s
            end) as Hs'.
  { unfold s', applyDefaults. rewrite Ha. by destruct l. }
  pose proof (find_first preset_default l) as Hfind.
  split; [|split; [by apply applyDefaults_marks|]].
  - destruct (find preset_default l) as [p|].
    + left. destruct Hfind as (l1&l2&Hl12&Hp&Hl1). exists l1, p, l2.
      by rewrite Hs'.
    + right. by rewrite Hs'.
  - rewrite Hs'. destruct (find preset_default l); cbn; repeat split; try done.
    all: intros id' Hne; unfold is_applied, applied_defaults; cbn;
      by rewrite lookup_insert_ne.
Qed.

(** ** Further properties: runs that never ask for the default *)

Lemma release_no_default p o ws :
  Forall (λ w : nat * callback, applies_default w.2 = false) ws →
  Forall (λ j : callback * settlement, applies_default j.1 = false) (release p o ws).1 ∧
  Forall (λ w : nat * callback, applies_default w.2 = false) (release p o ws).2.
Proof.
  induction ws as [|[q cb] ws IH]; [done|].
  intros [Hcb Hws]%Forall_cons. destruct (IH Hws) as [H1 H2].
  cbn [release]. destruct (release p o ws) as [ready rest]. cbn [fst snd] in *.
  destruct (q =? p); cbn [fst snd]; split; try done; by constructor.
Qed.

Lemma settle_no_default p o s : no_default_pending s → no_default_pending (settle p o s).
Proof.
  intros [Hw Hj]. unfold settle. destruct (promises s !! p) as [[src []]|]; try done.
  destruct (release_no_default p o (waiting s) Hw) as [H1 H2].
  destruct (release p o (waiting s)) as [ready rest]. split; cbn in *; [done|].
  by apply Forall_app.
Qed.

Lemma subscribe_no_default p cb s :
  applies_default cb = false → no_default_pending s →
  no_default_pending (subscribe p cb s).
Proof.
  intros Hcb [Hw Hj]. unfold subscribe.
  destruct (status_at p s); split; cbn; try done; apply Forall_app; split; try done;
    by constructor.
Qed.

Lemma no_default_runtime s s' :
  waiting s' = waiting s → jobs s' = jobs s →
  no_default_pending s → no_default_pending s'.
Proof. unfold no_default_pending. by intros -> ->. Qed.

Lemma registerPreset_no_default type url s :
  no_default_pending s → no_default_pending (registerPreset type url s).2.
Proof.
  intros H. unfold registerPreset, new_promise.
  destruct (negb (is_requested url s)); [|done].
  destruct (cache type s) as [|p|name]; cbv beta iota zeta; cbn [snd].
  - eapply no_default_runtime; [reflexivity..|].
    apply subscribe_no_default; [done|]. by apply (no_default_runtime s).
  - apply subscribe_no_default; [done|]. by apply (no_default_runtime s).
  - by apply (no_default_runtime s).
Qed.

Lemma initPreset_no_default id s :
  no_default_pending s → no_default_pending (initPreset id false s).2.
Proof.
  intros H. destruct (initPreset_cases id false s) as [->|(e&_&->)]; [|done].
  unfold construct, new_promise. cbv beta iota zeta. cbn [snd].
  eapply no_default_runtime; [reflexivity..|].
  apply subscribe_no_default; [done|]. by apply (no_default_runtime s).
Qed.

Lemma body_no_default cb o s :
  applies_default cb = false → no_default_pending s →
  no_default_pending (body cb o s).2 ∧ same_store s (body cb o s).2.
Proof.
  intros Hcb H.
  destruct cb as [ch|t u ch|t orig n|id opt l p], o; cbn [body handleLoadError];
    cbn [applies_default] in Hcb; subst.
  all: try (split; [by repeat case_match|repeat case_match; by repeat split]).
  unfold new_promise. cbv beta iota zeta. cbn [snd]. split.
  - eapply no_default_runtime; [reflexivity..|].
    apply subscribe_no_default; [done|]. by apply (no_default_runtime s).
  - frame_solve.
Qed.

Lemma step_no_default e s :
  asks_default e = false → no_default_pending s →
  no_default_pending (step e s) ∧ same_store s (step e s).
Proof.
  intros He H. destruct e; cbn [step]; cbn [asks_default] in He; subst; try done.
  - split; [by apply registerPreset_no_default|apply registerPreset_store].
  - split; [|apply getPresets_store].
    rewrite getPresets_state. destruct (cache id s); try done.
    by apply initPreset_no_default.
  - split; [by apply initPreset_no_default|apply initPreset_store].
  - split; [|apply same_manager_store, deliver_same].
    unfold deliver. destruct (promises s !! p) as [[[] ?]|]; try done.
    all: by apply settle_no_default.
  - unfold tick. destruct (jobs s) as [|[cb o] rest] eqn:Hj; [split; [done|by repeat split]|].
    destruct H as [Hw Hjobs]. rewrite Hj in Hjobs.
    apply Forall_cons in Hjobs as [Hcb Hrest]. cbn [fst] in Hcb.
    unfold run_job.
    destruct (body_no_default cb o (with_jobs (λ _, rest) s) Hcb) as [H1 H2]; [done|].
    destruct (body cb o (with_jobs (λ _, rest) s)) as [c s1]. cbn [snd] in *.
    split; [by apply settle_no_default|].
    destruct H2 as (?&?&?). unfold same_store.
    destruct (settle_same (target cb) (of_completion c) s1) as (_&_&->&->&_&->&_).
    by repeat split.
Qed.

(** X3. applyDefaults is reached only on request.  In a run that starts
    with no callback waiting to apply a default, and in which no call passes
    a true applyDefault flag or calls applyDefaults itself, no command is
    executed and the settings are never written. *)
Theorem no_default_without_request (evs : list event) (s : state) :
  no_default_pending s →
  Forall (λ e, asks_default e = false) evs →
  executed (run evs s) = executed s ∧
  settings (run evs s) = settings s ∧
  no_default_pending (run evs s).
Proof.
  revert s. induction evs as [|e evs IH]; intros s Hs Hevs; [done|].
  apply Forall_cons in Hevs as [He Hevs].
  destruct (step_no_default e s He Hs) as [H1 (Hset&Hex&_)].
  change (run (e :: evs) s) with (run evs (step e s)).
  destruct (IH (step e s) H1 Hevs) as (->&->&?). by rewrite Hset, Hex.
Qed.

(** ** Further properties: when a later request is issued *)


Lemma never_requested_step url e s :
  is_requested url s = true → fetches url s + owed url s = 0 →
  fetches url (step e s) + owed url (step e s) = 0.
Proof.
  intros Hr H0. destruct e; cbn [step].
  - destruct (is_requested url0 s) eqn:Hu.
    + by rewrite registerPreset_again.
    + rewrite registerPreset_issues by done. rewrite eqb_decide.
      destruct (decide (url0 = url)) as [->|]; [congruence|lia].
  - rewrite getPresets_state. destruct (cache id s); try done.
    by rewrite initPreset_issues.
  - by rewrite initPreset_issues.
  - destruct (applyDefaults_runtime id presets s) as (Hp&Hw&Hj&_).
    unfold fetches, owed. by rewrite Hp, Hw, Hj.
  - unfold deliver. destruct (promises s !! p) as [[[] ?]|]; try done.
    all: by rewrite settle_fetches, settle_owed.
  - unfold tick. destruct (jobs s) as [|[cb o] rest] eqn:Hj; [done|].
    pose proof (run_job_issues url cb o (with_jobs (λ _, rest) s)) as Hrun.
    assert (owed url s = owed url (with_jobs (λ _, rest) s) +
                         (if will_request url cb then 1 else 0)) as Ho.
    { unfold owed. rewrite Hj. cbn. destruct (will_request url cb); cbn; lia. }
    assert (fetches url (with_jobs (λ _, rest) s) = fetches url s) as Hf by done.
    destruct (will_request url cb); lia.
Qed.

Lemma never_requested_run url evs s :
  is_requested url s = true → fetches url s + owed url s = 0 →
  fetches url (run evs s) = 0.
Proof.
  revert s. induction evs as [|e evs IH]; intros s Hr H0; [cbn; lia|].
  change (run (e :: evs) s) with (run evs (step e s)).
  apply IH; [by apply step_keeps_requested|by apply never_requested_step].
Qed.

(** X5. When the outer callback of a later registration runs on a rejected
    earlier future, the error handler logs one message, the cache is left
    alone, and the URL of that registration, though marked requested, is
    not requested then nor at any later time. *)
Theorem rejected_future_blocks_request (evs0 : list event) (type url : string)
    (c : nat) (reason : jsval) (rest : list (callback * settlement)) :
  let s := run evs0 init in
  jobs s = (MergeOuter type url c, Reject reason) :: rest →
  logged (tick s) = logged (handleLoadError reason s).2 ∧
  presets_ (tick s) = presets_ s ∧
  is_requested url (tick s) = true ∧
  ∀ evs, fetches url (run evs (tick s)) = 0.
Proof.
  intros s Hj.
  assert (single_flight url s) as Hsf
    by apply run_single, (single_flight_fresh url (mkSettings None None 0) ∅).
  assert (owed url s = owed url (with_jobs (λ _, rest) s) + 1) as Ho.
  { unfold owed. rewrite Hj. cbn. rewrite String.eqb_refl. cbn. lia. }
  unfold single_flight in Hsf.
  destruct (is_requested url s) eqn:Hr; [|lia].
  assert (tick s = settle c (Resolve VUndefined)
                     (handleLoadError reason (with_jobs (λ _, rest) s)).2) as Htick.
  { unfold tick. by rewrite Hj. }
  assert (is_requested url (tick s) = true) as Hr'
    by by apply (step_keeps_requested url Tick).
  repeat split; try done.
  - rewrite Htick. by destruct (settle_same c (Resolve VUndefined)
      (handleLoadError reason (with_jobs (λ _, rest) s)).2) as (_&_&_&_&->&_).
  - rewrite Htick. by destruct (settle_same c (Resolve VUndefined)
      (handleLoadError reason (with_jobs (λ _, rest) s)).2) as (->&_).
  - intros evs. apply never_requested_run; [done|].
    rewrite Htick, settle_fetches, settle_owed.
    assert (fetches url (handleLoadError reason (with_jobs (λ _, rest) s)).2 = fetches url s)
      as -> by done.
    assert (owed url (handleLoadError reason (with_jobs (λ _, rest) s)).2 =
            owed url (with_jobs (λ _, rest) s)) as -> by done.
    lia.
Qed.







(** ** Further properties: what a merge keeps *)

Lemma tick_runtime_rejected cb reason src rest s pm rq Ps Ws :
  runtime s = (pm, rq, Ps, Ws, (cb, Reject reason) :: rest) →
  of_registerPreset cb →
  Ps !! target cb = Some (mkPromise src Pending) →
  runtime (tick s) =
    (pm, rq, <[target cb := mkPromise src (Fulfilled VUndefined)]> Ps,
     (release (target cb) (Resolve VUndefined) Ws).2,
     rest ++ (release (target cb) (Resolve VUndefined) Ws).1).
Proof.
  intros Hr Hcb Hc. pose proof Hr as (<-&<-&<-&<-&Hj)%runtime_inv.
  unfold tick. rewrite Hj. unfold run_job.
  assert (body cb (Reject reason) (with_jobs (λ _, rest) s) =
          handleLoadError reason (with_jobs (λ _, rest) s)) as -> by by destruct cb.
  cbn [handleLoadError of_completion].
  by apply (settle_runtime (target cb) (Resolve VUndefined) src).
Qed.

(** X7. In a manager at rest for which the lookups of lines 58 and 60 find
    nothing: when the request of the first registration is rejected, its
    future is fulfilled with undefined; a second registration from another URL
    then finds nothing to merge with, and the cache ends with a future
    fulfilled with the second list alone. *)
Theorem merge_after_rejected_first_request (type u1 u2 : string) (reason text2 : jsval)
    (B : list jsval) (st : Settings) (ly : gmap string Layer) (evs0 : list event) :
  let s0 := run evs0 (fresh st ly) in
  let n := length (promises s0) in
  jobs s0 = [] →
  cache type s0 = NoEntry →
  is_requested u1 s0 = false → is_requested u2 s0 = false → u1 ≠ u2 →
  JSON_parse text2 = Return (VArray B) →
  let s := run [CallRegisterPreset type u1; Deliver n (Reject reason); Tick;
                CallRegisterPreset type u2; Tick;
                Deliver (n + 3) (Resolve text2); Tick] s0 in
  presets_ s !! type = Some (n + 4) ∧
  status_at (n + 4) s = Fulfilled (VArray B) ∧
  status_at (n + 1) s = Fulfilled VUndefined.
Proof.
  intros s0 n Hjobs Hcache Hu1 Hu2 Hne HB s.
  assert (wf s0) as Hwf by apply wf_run, wf_fresh.
  assert (valid s0) as [Hkeys _] by (apply valid_run; [apply wf_fresh|apply valid_fresh]).
  assert (runtime s0 = (presets_ s0, requested_ s0, promises s0 ++ [], waiting s0, [])) as H0.
  { unfold runtime. by rewrite Hjobs, app_nil_r. }
  unfold run in s. cbn [foldl step] in s. subst n.
  set (P := promises s0) in *. set (W := waiting s0) in *.
  set (pm := presets_ s0) in *. set (rq := requested_ s0) in *.
  pose proof (registerPreset_runtime_first type u1 s0 _ _ _ _ _ H0 Hcache Hu1) as H1.
  normalise H1.
  set (s1 := (registerPreset type u1 s0).2) in *.
  pose proof (deliver_runtime (length P) (Reject reason) (Request u1) s1 _ _ _ _ _ H1
                ltac:(by apply list_lookup_middle) ltac:(done)) as H2.
  rewrite (release_tail (length P) (length P)) in H2 by (done || lia).
  normalise H2.
  set (s2 := deliver (length P) (Reject reason) s1) in *.
  pose proof (tick_runtime_rejected (LoadFirst (length P + 1)) reason Chained _ s2
                _ _ _ _ H2 I ltac:(cbn [target]; by rewrite lookup_app_plus)) as H3.
  cbn [target] in H3.
  rewrite (release_none (length P + 1)) in H3
    by (intros q cb Hin; specialize (Hkeys q cb Hin); lia).
  normalise H3.
  set (s3 := tick s2) in *.
  assert (is_requested u2 s3 = false) as Hu2'.
  { unfold is_requested. apply runtime_inv in H3 as (_&->&_).
    rewrite lookup_insert_ne by done. exact Hu2. }
  pose proof (registerPreset_runtime_fulfilled type u2 (length P + 1) Chained VUndefined
                s3 _ _ _ _ _ H3 ltac:(by rewrite lookup_insert_eq) Hu2'
                ltac:(by rewrite lookup_app_plus)) as H4.
  normalise H4.
  set (s4 := (registerPreset type u2 s3).2) in *.
  pose proof (tick_runtime_outer type u2 (length P + 2) VUndefined Chained _ s4 _ _ _ _ H4
                ltac:(by rewrite lookup_app_plus)) as H5.
  cbv zeta in H5.
  rewrite (release_tail (length P) (length P + 2)) in H5 by (done || lia).
  normalise H5.
  set (s5 := tick s4) in *.
  pose proof (deliver_runtime (length P + 3) (Resolve text2) (Request u2) s5 _ _ _ _ _ H5
                ltac:(by rewrite lookup_app_plus) ltac:(done)) as H6.
  rewrite (release_tail (length P) (length P + 3)) in H6 by (done || lia).
  normalise H6.
  set (s6 := deliver (length P + 3) (Resolve text2) s5) in *.
  pose proof (tick_runtime_inner type VUndefined (length P + 4) text2 (VArray B)
                (VArray B) Chained _ s6
                _ _ _ _ H6 HB eq_refl ltac:(by rewrite lookup_app_plus)) as H7.
  rewrite (release_none (length P + 4)) in H7
    by (intros q cb Hin; specialize (Hkeys q cb Hin); lia).
  normalise H7.
  apply runtime_inv in H7 as (Hpm&_&HP&_). subst s. repeat split.
  - by rewrite Hpm, lookup_insert_eq.
  - unfold status_at. rewrite HP. by rewrite lookup_app_plus.
  - unfold status_at. rewrite HP. by rewrite lookup_app_plus.
Qed.

(** X8. In a manager at rest for which the lookups of lines 58 and 60 find
    nothing: a later body that parses to something falsy (null, false, 0, the
    empty string) replaces the cache entry all the same: the new future is
    fulfilled with that value, and the list of the first registration, though
    its future still holds it, is no longer what the cache shows. *)
Theorem null_body_replaces_cached_list (type u1 u2 : string) (text1 text2 : jsval)
    (A : list jsval) (v : jsval)
    (st : Settings) (ly : gmap string Layer) (evs0 : list event) :
  let s0 := run evs0 (fresh st ly) in
  let n := length (promises s0) in
  jobs s0 = [] →
  cache type s0 = NoEntry →
  is_requested u1 s0 = false → is_requested u2 s0 = false → u1 ≠ u2 →
  JSON_parse text1 = Return (VArray A) →
  JSON_parse text2 = Return v → truthy v = false →
  let s := run [CallRegisterPreset type u1; Deliver n (Resolve text1); Tick;
                CallRegisterPreset type u2; Tick;
                Deliver (n + 3) (Resolve text2); Tick] s0 in
  presets_ s !! type = Some (n + 4) ∧
  status_at (n + 4) s = Fulfilled v ∧
  status_at (n + 1) s = Fulfilled (VArray A).
Proof.
  intros s0 n Hjobs Hcache Hu1 Hu2 Hne HA HB Hv s.
  assert (wf s0) as Hwf by apply wf_run, wf_fresh.
  assert (valid s0) as [Hkeys _] by (apply valid_run; [apply wf_fresh|apply valid_fresh]).
  assert (runtime s0 = (presets_ s0, requested_ s0, promises s0 ++ [], waiting s0, [])) as H0.
  { unfold runtime. by rewrite Hjobs, app_nil_r. }
  unfold run in s. cbn [foldl step] in s. subst n.
  set (P := promises s0) in *. set (W := waiting s0) in *.
  set (pm := presets_ s0) in *. set (rq := requested_ s0) in *.
  pose proof (registerPreset_runtime_first type u1 s0 _ _ _ _ _ H0 Hcache Hu1) as H1.
  normalise H1.
  set (s1 := (registerPreset type u1 s0).2) in *.
  pose proof (deliver_runtime (length P) (Resolve text1) (Request u1) s1 _ _ _ _ _ H1
                ltac:(by apply list_lookup_middle) ltac:(done)) as H2.
  rewrite (release_tail (length P) (length P)) in H2 by (done || lia).
  normalise H2.
  set (s2 := deliver (length P) (Resolve text1) s1) in *.
  pose proof (tick_runtime_first (length P + 1) text1 (VArray A) Chained _ s2 _ _ _ _ H2 HA
                ltac:(by rewrite lookup_app_plus)) as H3.
  rewrite (release_none (length P + 1)) in H3
    by (intros q cb Hin; specialize (Hkeys q cb Hin); lia).
  normalise H3.
  set (s3 := tick s2) in *.
  assert (is_requested u2 s3 = false) as Hu2'.
  { unfold is_requested. apply runtime_inv in H3 as (_&->&_).
    rewrite lookup_insert_ne by done. exact Hu2. }
  pose proof (registerPreset_runtime_fulfilled type u2 (length P + 1) Chained (VArray A)
                s3 _ _ _ _ _ H3 ltac:(by rewrite lookup_insert_eq) Hu2'
                ltac:(by rewrite lookup_app_plus)) as H4.
  normalise H4.
  set (s4 := (registerPreset type u2 s3).2) in *.
  pose proof (tick_runtime_outer type u2 (length P + 2) (VArray A) Chained _ s4 _ _ _ _ H4
                ltac:(by rewrite lookup_app_plus)) as H5.
  cbv zeta in H5.
  rewrite (release_tail (length P) (length P + 2)) in H5 by (done || lia).
  normalise H5.
  set (s5 := tick s4) in *.
  pose proof (deliver_runtime (length P + 3) (Resolve text2) (Request u2) s5 _ _ _ _ _ H5
                ltac:(by rewrite lookup_app_plus) ltac:(done)) as H6.
  rewrite (release_tail (length P) (length P + 3)) in H6 by (done || lia).
  normalise H6.
  set (s6 := deliver (length P + 3) (Resolve text2) s5) in *.
  pose proof (tick_runtime_inner type (VArray A) (length P + 4) text2 v v Chained _ s6
                _ _ _ _ H6 HB (merge_falsy v (VArray A) Hv)
                ltac:(by rewrite lookup_app_plus)) as H7.
  rewrite (release_none (length P + 4)) in H7
    by (intros q cb Hin; specialize (Hkeys q cb Hin); lia).
  normalise H7.
  apply runtime_inv in H7 as (Hpm&_&HP&_). subst s. repeat split.
  - by rewrite Hpm, lookup_insert_eq.
  - unfold status_at. rewrite HP. by rewrite lookup_app_plus.
  - unfold status_at. rewrite HP. by rewrite lookup_app_plus.
Qed.

(** X9. Three registrations of one type, in a manager at rest for which the
    lookups of lines 58 and 60 find nothing, made before the first body has
    arrived: the second and the third both wait for the first future, and each
    merges its own list with the first list alone.  The cache ends with the
    future of whichever request completed last; when that is the second, the
    third list is in the cache no more. *)
Theorem last_response_wins (type u1 u2 u3 : string) (text1 text2 text3 : jsval)
    (A B C : list jsval) (st : Settings) (ly : gmap string Layer) (evs0 : list event) :
  let s0 := run evs0 (fresh st ly) in
  let n := length (promises s0) in
  jobs s0 = [] →
  cache type s0 = NoEntry →
  is_requested u1 s0 = false → is_requested u2 s0 = false →
  is_requested u3 s0 = false →
  u1 ≠ u2 → u1 ≠ u3 → u2 ≠ u3 →
  JSON_parse text1 = Return (VArray A) →
  JSON_parse text2 = Return (VArray B) →
  JSON_parse text3 = Return (VArray C) →
  let s := run [CallRegisterPreset type u1; CallRegisterPreset type u2;
                CallRegisterPreset type u3;
                Deliver n (Resolve text1); Tick; Tick; Tick;
                Deliver (n + 6) (Resolve text3); Tick;
                Deliver (n + 4) (Resolve text2); Tick] s0 in
  presets_ s !! type = Some (n + 5) ∧
  status_at (n + 5) s = Fulfilled (VArray (B ++ A)) ∧
  status_at (n + 7) s = Fulfilled (VArray (C ++ A)).
Proof.
  intros s0 n Hjobs Hcache Hu1 Hu2 Hu3 H12 H13 H23 HA HB HC s.
  assert (wf s0) as Hwf by apply wf_run, wf_fresh.
  assert (valid s0) as [Hkeys _] by (apply valid_run; [apply wf_fresh|apply valid_fresh]).
  assert (runtime s0 = (presets_ s0, requested_ s0, promises s0 ++ [], waiting s0, [])) as H0.
  { unfold runtime. by rewrite Hjobs, app_nil_r. }
  unfold run in s. cbn [foldl step] in s. subst n.
  set (P := promises s0) in *. set (W := waiting s0) in *.
  set (pm := presets_ s0) in *. set (rq := requested_ s0) in *.
  (* the three registrations *)
  pose proof (registerPreset_runtime_first type u1 s0 _ _ _ _ _ H0 Hcache Hu1) as H1.
  normalise H1.
  set (s1 := (registerPreset type u1 s0).2) in *.
  assert (is_requested u2 s1 = false) as Hu2'.
  { unfold is_requested. apply runtime_inv in H1 as (_&->&_).
    rewrite lookup_insert_ne by done. exact Hu2. }
  pose proof (registerPreset_runtime_pending type u2 (length P + 1) Chained
                s1 _ _ _ _ _ H1 ltac:(by rewrite lookup_insert_eq) Hu2'
                ltac:(by rewrite lookup_app_plus)) as H2.
  normalise H2.
  set (s2 := (registerPreset type u2 s1).2) in *.
  assert (is_requested u3 s2 = false) as Hu3'.
  { unfold is_requested. apply runtime_inv in H2 as (_&->&_).
    rewrite !lookup_insert_ne by done. exact Hu3. }
  pose proof (registerPreset_runtime_pending type u3 (length P + 1) Chained
                s2 _ _ _ _ _ H2 ltac:(by rewrite lookup_insert_eq) Hu3'
                ltac:(by rewrite lookup_app_plus)) as H3.
  normalise H3.
  set (s3 := (registerPreset type u3 s2).2) in *.
  (* the first body arrives and releases both outer callbacks *)
  pose proof (deliver_runtime (length P) (Resolve text1) (Request u1) s3 _ _ _ _ _ H3
                ltac:(by apply list_lookup_middle) ltac:(done)) as H4.
  rewrite (release_tail (length P) (length P)) in H4 by (done || lia).
  normalise H4.
  set (s4 := deliver (length P) (Resolve text1) s3) in *.
  pose proof (tick_runtime_first (length P + 1) text1 (VArray A) Chained _ s4 _ _ _ _ H4 HA
                ltac:(by rewrite lookup_app_plus)) as H5.
  rewrite (release_tail (length P) (length P + 1)) in H5 by (done || lia).
  normalise H5.
  set (s5 := tick s4) in *.
  (* each outer callback issues its request *)
  pose proof (tick_runtime_outer type u2 (length P + 2) (VArray A) Chained _ s5 _ _ _ _ H5
                ltac:(by rewrite lookup_app_plus)) as H6.
  cbv zeta in H6.
  rewrite (release_tail (length P) (length P + 2)) in H6 by (done || lia).
  normalise H6.
  set (s6 := tick s5) in *.
  pose proof (tick_runtime_outer type u3 (length P + 3) (VArray A) Chained _ s6 _ _ _ _ H6
                ltac:(by rewrite lookup_app_plus)) as H7.
  cbv zeta in H7. repeat rewrite <- app_assoc in H7.
  rewrite (release_tail (length P) (length P + 3)) in H7 by (done || lia).
  normalise H7.
  set (s7 := tick s6) in *.
  (* the third body arrives first *)
  pose proof (deliver_runtime (length P + 6) (Resolve text3) (Request u3) s7 _ _ _ _ _ H7
                ltac:(by rewrite lookup_app_plus) ltac:(done)) as H8.
  rewrite (release_tail (length P) (length P + 6)) in H8 by (done || lia).
  normalise H8.
  set (s8 := deliver (length P + 6) (Resolve text3) s7) in *.
  pose proof (tick_runtime_inner type (VArray A) (length P + 7) text3 (VArray C)
                (VArray (C ++ A)) Chained _ s8
                _ _ _ _ H8 HC (merge_arrays C A) ltac:(by rewrite lookup_app_plus)) as H9.
  rewrite (release_tail (length P) (length P + 7)) in H9 by (done || lia).
  normalise H9.
  set (s9 := tick s8) in *.
  (* the second body arrives last *)
  pose proof (deliver_runtime (length P + 4) (Resolve text2) (Request u2) s9 _ _ _ _ _ H9
                ltac:(by rewrite lookup_app_plus) ltac:(done)) as H10.
  rewrite (release_tail (length P) (length P + 4)) in H10 by (done || lia).
  normalise H10.
  set (s10 := deliver (length P + 4) (Resolve text2) s9) in *.
  pose proof (tick_runtime_inner type (VArray A) (length P + 5) text2 (VArray B)
                (VArray (B ++ A)) Chained _ s10
                _ _ _ _ H10 HB (merge_arrays B A) ltac:(by rewrite lookup_app_plus)) as H11.
  rewrite (release_none (length P + 5)) in H11
    by (intros q cb Hin; specialize (Hkeys q cb Hin); lia).
  normalise H11.
  apply runtime_inv in H11 as (Hpm&_&HP&_). subst s. repeat split.
  - by rewrite Hpm, lookup_insert_eq.
  - unfold status_at. rewrite HP. by rewrite lookup_app_plus.
  - unfold status_at. rewrite HP. by rewrite lookup_app_plus.
Qed.

(** ** Further properties: the default is applied when the loader settles *)




(** ** Further properties: one cache for types and layer ids *)




(** ** Further properties: one command per layer id *)

(** X12. Over a whole run, by whichever path applyDefaults is reached, at
    most one command is executed for a layer id that was not marked applied
    at the start, and none for an id that was. *)
Theorem default_applied_at_most_once (id : string) (evs : list event) (s : state) :
  times_executed id (run evs s) ≤
    times_executed id s + (if is_applied id s then 0 else 1) ∧
  (is_applied id s = true → times_executed id (run evs s) = times_executed id s).
Proof.
  destruct (run_advance evs s id) as [_ Hbudget]. unfold credit in Hbudget.
  split.
  - destruct (is_applied id s), (is_applied id (run evs s)); lia.
  - intros Ha. rewrite Ha in Hbudget.
    assert (times_executed id s ≤ times_executed id (run evs s)); [|
      destruct (is_applied id (run evs s)); lia].
    clear. revert s. induction evs as [|e evs IH]; intros s; [done|].
    change (run (e :: evs) s) with (run evs (step e s)).
    etrans; [|apply IH]. clear.
    assert (∀ s s', same_store s s' → times_executed id s ≤ times_executed id s') as Hsame.
    { intros s0 s' H. by rewrite (same_store_times id s0 s' H). }
    assert (∀ i a s0, times_executed id s0 ≤ times_executed id (applyDefaults i a s0))
      as Happly.
    { intros i a s0. unfold applyDefaults, times_executed. destruct a as [|l]; [done|].
      destruct (negb (length l =? 0) && negb (is_applied i s0)); [|done].
      destruct (find preset_default l); cbn; [|done].
      rewrite List.filter_app, length_app. lia. }
    destruct e; cbn [step].
    + apply Hsame, registerPreset_store.
    + apply Hsame, getPresets_store.
    + apply Hsame, initPreset_store.
    + apply Happly.
    + apply Hsame, same_manager_store, deliver_same.
    + unfold tick. destruct (jobs s) as [|[cb o] rest]; [done|]. unfold run_job.
      assert (times_executed id s ≤
              times_executed id (body cb o (with_jobs (λ _, rest) s)).2) as Hb.
      { change (times_executed id s) with (times_executed id (with_jobs (λ _, rest) s)).
        destruct cb as [c|t u c|t orig n|i [] l p], o; cbn [body snd].
        all: try apply (Happly i (as_presets_arg l)).
        all: apply Hsame; unfold handleLoadError; frame_solve. }
      destruct (body cb o (with_jobs (λ _, rest) s)) as [c s1]. cbn [snd] in Hb.
      by rewrite (same_store_times id s1 _
                    (same_manager_store _ _ (settle_same (target cb) (of_completion c) s1))).
Qed.

(** ** Names that Object.prototype answers *)

(** X17. An id that names a member of Object.prototype and has no entry of
    its own in the cache: the lookup of line 115 finds the inherited member,
    so getPresets does not call initPreset and returns that member, not a
    future; no promise is made and the loader is not asked. *)
Theorem getPresets_inherited_id_returns_member (id : string) (opt : bool) (s : state) :
  presets_ s !! id = None → inherited id = true →
  getPresets id opt s = (Gives (Member id), s) ∧
  promises (getPresets id opt s).2 = promises s ∧
  presets_ (getPresets id opt s).2 !! id = None.
Proof.
  intros Hp Hi.
  assert (getPresets id opt s = (Gives (Member id), s)) as ->; [|done].
  unfold getPresets, cache. by rewrite Hp, Hi.
Qed.

(** X14. registerPreset for a type that names a member of Object.prototype,
    with a URL not yet requested: line 61 marks the URL, line 64 takes the
    inherited member for a promise, and line 66 throws a TypeError.  Nothing
    is cached, and the URL is not requested then nor at any later time. *)
Theorem registerPreset_inherited_type_throws (type url : string)
    (st : Settings) (ly : gmap string Layer) (evs0 : list event) :
  let s := run evs0 (fresh st ly) in
  presets_ s !! type = None → inherited type = true →
  is_requested url s = false →
  registerPreset type url s =
    (Throw (TypeError_not_a_function "promise.then"),
     with_requested_ (λ m, <[url := true]> m) s) ∧
  ∀ evs, fetches url (run evs (registerPreset type url s).2) = 0 ∧
         is_requested url (run evs (registerPreset type url s).2) = true.
Proof.
  intros s Hp Hi Hu.
  assert (cache type s = Member type) as Hc by (unfold cache; by rewrite Hp, Hi).
  assert (registerPreset type url s =
            (Throw (TypeError_not_a_function "promise.then"),
             with_requested_ (λ m, <[url := true]> m) s)) as Heq.
  { unfold registerPreset. by rewrite Hc, Hu. }
  split; [done|]. intros evs.
  assert (single_flight url s) as Hsf by apply run_single, single_flight_fresh.
  unfold single_flight in Hsf. rewrite Hu in Hsf.
  assert (is_requested url (registerPreset type url s).2 = true) as Hr
    by apply registerPreset_requested.
  split; [|by apply run_keeps_requested].
  apply never_requested_run; [done|].
  rewrite Heq. cbn [snd].
  change (fetches url (with_requested_ (λ m, <[url := true]> m) s)) with (fetches url s).
  change (owed url (with_requested_ (λ m, <[url := true]> m) s)) with (owed url s).
  lia.
Qed.

(** X15. A URL that names a member of Object.prototype counts as requested
    from the start: in every run of a new manager no request for it is ever
    issued, and registerPreset with it returns without doing anything. *)
Theorem inherited_url_is_never_requested (url : string)
    (st : Settings) (ly : gmap string Layer) (evs : list event) :
  inherited url = true →
  let s := run evs (fresh st ly) in
  is_requested url s = true ∧ fetches url s = 0 ∧
  ∀ type, registerPreset type url s = (Return VUndefined, s).
Proof.
  intros Hi s.
  assert (is_requested url (fresh st ly) = true) as H0 by done.
  assert (is_requested url s = true) as Hr by by apply run_keeps_requested.
  split; [done|]. split.
  - by apply never_requested_run.
  - intros type. by apply registerPreset_again.
Qed.

(** ** A later body that is not a list *)

Lemma merge_no_concat presets orig :
  truthy presets = true → has_concat presets = false → truthy orig = true →
  merge presets orig = Throw (TypeError_not_a_function "presets.concat").
Proof. intros H1 H2 H3. unfold merge. rewrite H1, H3. by destruct presets. Qed.

(** The handler is the only writer of the log. *)
Lemma step_logged e s : calls_handler e s = false → logged (step e s) = logged s.
Proof.
  destruct e as [type url|id opt|id opt|id presets|p o|]; cbn [step]; intros Hc.
  - unfold registerPreset, subscribe, new_promise. by repeat (case_match; cbn).
  - rewrite getPresets_state. destruct (cache id s); try done.
    destruct (initPreset_cases id opt s) as [->|(e&_&->)]; [|done].
    unfold construct, subscribe, new_promise. cbn. by repeat (case_match; cbn).
  - destruct (initPreset_cases id opt s) as [->|(e&_&->)]; [|done].
    unfold construct, subscribe, new_promise. cbn. by repeat (case_match; cbn).
  - unfold applyDefaults. by repeat (case_match; cbn).
  - by destruct (deliver_same p o s) as (_&_&_&_&->&_).
  - unfold tick. unfold calls_handler in Hc.
    destruct (jobs s) as [|[cb o] rest]; [done|]. unfold run_job.
    assert (logged (body cb o (with_jobs (λ _, rest) s)).2 = logged s) as Hb.
    { destruct cb as [c|t u c|t orig n|i opt l p], o; try done; cbn [body snd].
      - unfold subscribe, new_promise. cbn. by repeat (case_match; cbn).
      - by repeat (case_match; cbn).
      - destruct opt; [|done]. unfold applyDefaults. by repeat (case_match; cbn).
      - destruct opt; [|done]. unfold applyDefaults. by repeat (case_match; cbn). }
    destruct (body cb o (with_jobs (λ _, rest) s)) as [c s1]. cbn [snd] in Hb.
    by destruct (settle_same (target cb) (of_completion c) s1) as (_&_&_&_&->&_).
Qed.

Lemma runtime_calls_handler e cb o rest s pm rq Ps Ws :
  runtime s = (pm, rq, Ps, Ws, (cb, Resolve o) :: rest) → calls_handler e s = false.
Proof.
  intros (_&_&_&_&Hj)%runtime_inv. unfold calls_handler. rewrite Hj.
  by destruct e, cb.
Qed.

(** X16. In a manager at rest for which the lookups of lines 58 and 60 find
    nothing: a later body that parses to a number, to true or to an object is
    truthy and has no [concat], so with the earlier list in place line 71
    throws before line 74 is reached.  The later future is rejected with the
    TypeError, the cache keeps showing the first future and its list, and
    the error handler is not called: nothing is logged. *)
Theorem non_array_body_leaves_cache_entry (type u1 u2 : string) (text1 text2 : jsval)
    (A : list jsval) (v : jsval)
    (st : Settings) (ly : gmap string Layer) (evs0 : list event) :
  let s0 := run evs0 (fresh st ly) in
  let n := length (promises s0) in
  jobs s0 = [] →
  cache type s0 = NoEntry →
  is_requested u1 s0 = false → is_requested u2 s0 = false → u1 ≠ u2 →
  JSON_parse text1 = Return (VArray A) →
  JSON_parse text2 = Return v → truthy v = true → has_concat v = false →
  let s := run [CallRegisterPreset type u1; Deliver n (Resolve text1); Tick;
                CallRegisterPreset type u2; Tick;
                Deliver (n + 3) (Resolve text2); Tick] s0 in
  presets_ s !! type = Some (n + 1) ∧
  status_at (n + 1) s = Fulfilled (VArray A) ∧
  status_at (n + 4) s = Rejected (TypeError_not_a_function "presets.concat") ∧
  logged s = logged s0.
Proof.
  intros s0 n Hjobs Hcache Hu1 Hu2 Hne HA HB Hv Hnc s.
  assert (wf s0) as Hwf by apply wf_run, wf_fresh.
  assert (valid s0) as [Hkeys _] by (apply valid_run; [apply wf_fresh|apply valid_fresh]).
  assert (runtime s0 = (presets_ s0, requested_ s0, promises s0 ++ [], waiting s0, [])) as H0.
  { unfold runtime. by rewrite Hjobs, app_nil_r. }
  unfold run in s. cbn [foldl] in s. subst n.
  set (P := promises s0) in *. set (W := waiting s0) in *.
  set (pm := presets_ s0) in *. set (rq := requested_ s0) in *.
  assert (logged (step (CallRegisterPreset type u1) s0) = logged s0) as L1
    by by apply step_logged.
  cbn [step] in s, L1.
  pose proof (registerPreset_runtime_first type u1 s0 _ _ _ _ _ H0 Hcache Hu1) as H1.
  normalise H1.
  set (s1 := (registerPreset type u1 s0).2) in *.
  assert (logged (step (Deliver (length P) (Resolve text1)) s1) = logged s1) as L2
    by by apply step_logged.
  cbn [step] in L2.
  pose proof (deliver_runtime (length P) (Resolve text1) (Request u1) s1 _ _ _ _ _ H1
                ltac:(by apply list_lookup_middle) ltac:(done)) as H2.
  rewrite (release_tail (length P) (length P)) in H2 by (done || lia).
  normalise H2.
  set (s2 := deliver (length P) (Resolve text1) s1) in *.
  assert (logged (step Tick s2) = logged s2) as L3
    by (apply step_logged; by eapply runtime_calls_handler).
  cbn [step] in L3.
  pose proof (tick_runtime_first (length P + 1) text1 (VArray A) Chained _ s2 _ _ _ _ H2 HA
                ltac:(by rewrite lookup_app_plus)) as H3.
  rewrite (release_none (length P + 1)) in H3
    by (intros q cb Hin; specialize (Hkeys q cb Hin); lia).
  normalise H3.
  set (s3 := tick s2) in *.
  assert (is_requested u2 s3 = false) as Hu2'.
  { unfold is_requested. apply runtime_inv in H3 as (_&->&_).
    rewrite lookup_insert_ne by done. exact Hu2. }
  assert (logged (step (CallRegisterPreset type u2) s3) = logged s3) as L4
    by by apply step_logged.
  cbn [step] in L4.
  pose proof (registerPreset_runtime_fulfilled type u2 (length P + 1) Chained (VArray A)
                s3 _ _ _ _ _ H3 ltac:(by rewrite lookup_insert_eq) Hu2'
                ltac:(by rewrite lookup_app_plus)) as H4.
  normalise H4.
  set (s4 := (registerPreset type u2 s3).2) in *.
  assert (logged (step Tick s4) = logged s4) as L5
    by (apply step_logged; by eapply runtime_calls_handler).
  cbn [step] in L5.
  pose proof (tick_runtime_outer type u2 (length P + 2) (VArray A) Chained _ s4 _ _ _ _ H4
                ltac:(by rewrite lookup_app_plus)) as H5.
  cbv zeta in H5.
  rewrite (release_tail (length P) (length P + 2)) in H5 by (done || lia).
  normalise H5.
  set (s5 := tick s4) in *.
  assert (logged (step (Deliver (length P + 3) (Resolve text2)) s5) = logged s5) as L6
    by by apply step_logged.
  cbn [step] in L6.
  pose proof (deliver_runtime (length P + 3) (Resolve text2) (Request u2) s5 _ _ _ _ _ H5
                ltac:(by rewrite lookup_app_plus) ltac:(done)) as H6.
  rewrite (release_tail (length P) (length P + 3)) in H6 by (done || lia).
  normalise H6.
  set (s6 := deliver (length P + 3) (Resolve text2) s5) in *.
  assert (logged (step Tick s6) = logged s6) as L7
    by (apply step_logged; by eapply runtime_calls_handler).
  cbn [step] in L7.
  pose proof (tick_runtime_inner_throws type (VArray A) (length P + 4) text2 v
                (TypeError_not_a_function "presets.concat") Chained _ s6
                _ _ _ _ H6 HB (merge_no_concat v (VArray A) Hv Hnc eq_refl)
                ltac:(by rewrite lookup_app_plus)) as H7.
  rewrite (release_none (length P + 4)) in H7
    by (intros q cb Hin; specialize (Hkeys q cb Hin); lia).
  normalise H7.
  apply runtime_inv in H7 as (Hpm&_&HP&_). subst s. cbn [step]. repeat split.
  - by rewrite Hpm, lookup_insert_eq.
  - unfold status_at. rewrite HP. by rewrite lookup_app_plus.
  - unfold status_at. rewrite HP. by rewrite lookup_app_plus.
  - congruence.
Qed.

End Manager.

(** ** The claims at sample inputs *)

Abbreviation sample_run :=
  (run sample_parse sample_ToString sample_default sample_addDefault_fails
       sample_promise_answers).
Abbreviation sample_tick := (tick sample_parse sample_ToString).
Abbreviation sample_cache := (cache sample_promise_answers).
Abbreviation sample_registerPreset := (registerPreset sample_promise_answers).
Abbreviation sample_getPresets :=
  (getPresets sample_default sample_addDefault_fails sample_promise_answers).

(** C1 at the spec's example: u1 returns [a], u2 returns [b]. *)
Lemma registerPreset_merges_newest_first_witness :
  (jobs (sample_run [] init) = [] ∧
   sample_cache "t1" (sample_run [] init) = NoEntry ∧
   is_requested "u1" (sample_run [] init) = false ∧
   is_requested "u2" (sample_run [] init) = false ∧
   "u1" ≠ "u2" ∧
   sample_parse (VString "[a]") = Return (VArray [VPreset preset_a]) ∧
   sample_parse (VString "[b]") = Return (VArray [VPreset preset_b])) ∧
  (let s := sample_run
              [CallRegisterPreset "t1" "u1"; Deliver 0 (Resolve (VString "[a]")); Tick;
               CallRegisterPreset "t1" "u2"; Tick;
               Deliver 3 (Resolve (VString "[b]")); Tick] init in
   (sample_getPresets "t1" false s).1 = Gives (Future 4) ∧
   status_at 4 s = Fulfilled (VArray [VPreset preset_b; VPreset preset_a])) ∧
  (let s := sample_run
              [CallRegisterPreset "t1" "u1"; CallRegisterPreset "t1" "u2";
               Deliver 0 (Resolve (VString "[a]")); Tick; Tick;
               Deliver 3 (Resolve (VString "[b]")); Tick] init in
   (sample_getPresets "t1" false s).1 = Gives (Future 4) ∧
   status_at 4 s = Fulfilled (VArray [VPreset preset_b; VPreset preset_a])).
Proof.
  assert ("u1" ≠ "u2") as Hne by discriminate.
  split; [by repeat split|].
  exact (registerPreset_merges_newest_first sample_parse sample_ToString
           sample_default sample_addDefault_fails sample_promise_answers
           "t1" "u1" "u2" (VString "[a]") (VString "[b]")
           [VPreset preset_a] [VPreset preset_b] (mkSettings None None 0) ∅ []
           eq_refl eq_refl eq_refl eq_refl Hne eq_refl eq_refl).
Defined.

(** Two registrations of one URL, for two types, issue one request; the
    second type gets no cache entry. *)
Example one_request_for_two_types :
  let s := sample_run
             [CallRegisterPreset "t1" "u1"; CallRegisterPreset "t2" "u1";
              Deliver 0 (Resolve (VString "[a]")); Tick] init in
  fetches "u1" s = 1 ∧ presets_ s !! "t1" = Some 1 ∧ presets_ s !! "t2" = None.
Proof. vm_compute. done. Qed.

(** C3 as stated fails: after applyDefaults with an empty list the id is not
    in the applied-defaults set, and the settings were not written. *)
Lemma applyDefaults_empty_list_does_not_mark :
  let s := applyDefaults "layer1" (IsArray []) init in
  executed s = [] ∧ is_applied "layer1" s = false ∧
  APPLIED_DEFAULTS (settings s) = None ∧ set_calls (settings s) = 0.
Proof. vm_compute. done. Qed.

(** C4 at a sample input. *)
Lemma applyDefaults_second_call_executes_nothing_witness :
  [preset_b] ≠ [] ∧
  let s1 := applyDefaults "layer1" (IsArray [preset_b]) init in
  is_applied "layer1" s1 = true ∧
  applyDefaults "layer1" (IsArray [preset_b]) s1 = s1 ∧
  executed (applyDefaults "layer1" (IsArray [preset_b]) s1) = executed s1 ∧
  times_executed "layer1" (applyDefaults "layer1" (IsArray [preset_b]) s1)
    ≤ times_executed "layer1" init + 1.
Proof.
  assert ([preset_b] ≠ []) as Hne by discriminate.
  split; [exact Hne|].
  exact (applyDefaults_second_call_executes_nothing sample_parse sample_ToString
           sample_default sample_addDefault_fails sample_promise_answers
           "layer1" [preset_b] (IsArray [preset_b]) [] init Hne).
Defined.

(** C5 as stated fails.  A first registration whose request is rejected puts
    a future into the cache that is fulfilled with undefined; and when the
    body does not parse, the future is rejected and nothing is logged. *)
Lemma failed_first_load_changes_cache :
  let rejected := sample_run
                    [CallRegisterPreset "t1" "u1";
                     Deliver 0 (Reject (VString "boom")); Tick] init in
  let malformed := sample_run
                     [CallRegisterPreset "t1" "u1";
                      Deliver 0 (Resolve (VString "{oops")); Tick] init in
  sample_cache "t1" init = NoEntry ∧
  sample_cache "t1" rejected = Future 1 ∧
  status_at 1 rejected = Fulfilled VUndefined ∧
  logged rejected = ["Failed to load presets. Reason: boom"] ∧
  sample_cache "t1" malformed = Future 1 ∧
  status_at 1 malformed = Rejected (VError "Unexpected token") ∧
  logged malformed = [].
Proof. vm_compute. done. Qed.

(** C6 at the failing input: a new manager, asked for the presets of
    "constructor".  The id has no entry in the cache, yet getPresets returns
    the member of Object.prototype that the lookup of line 115 finds: no
    promise exists afterwards, the loader was not asked, and no turn of the
    scheduler changes that.  The same call for "layer1" stores future 0 and
    asks the loader. *)
Theorem getPresets_constructor_skips_initPreset :
  presets_ init !! "constructor" = None ∧
  sample_getPresets "constructor" true init = (Gives (Member "constructor"), init) ∧
  promises (sample_run [CallGetPresets "constructor" true; Tick] init) = [] ∧
  presets_ (sample_run [CallGetPresets "constructor" true; Tick] init) = ∅ ∧
  (sample_getPresets "layer1" true init).1 = Gives (Future 0) ∧
  promises (sample_run [CallGetPresets "layer1" true] init) =
    [mkPromise Chained Pending; mkPromise (Loader "layer1") Pending].
Proof. vm_compute. done. Qed.

(** C8 as stated fails.  The second registration constructs future 4 for
    "t1"; its request is rejected, and with every callback run getPresets
    still returns future 1 of the first registration. *)
Lemma later_registration_does_not_supersede :
  let s := sample_run
             [CallRegisterPreset "t1" "u1"; Deliver 0 (Resolve (VString "[a]")); Tick;
              CallRegisterPreset "t1" "u2"; Tick;
              Deliver 3 (Reject (VString "boom")); Tick] init in
  (sample_getPresets "t1" false s).1 = Gives (Future 1) ∧
  newest "t1" s = Some 4 ∧
  status_at 4 s = Fulfilled VUndefined ∧
  jobs s = [] ∧ waiting s = [].
Proof. vm_compute. by repeat split. Qed.

(** C9 at the failing input.  The settings hold a list under the name
    "undefined" and the map has no layer "layer1": initPreset reads that
    list, appends the restore-to-default record, and fulfils the promise with
    both. *)
Theorem initPreset_absent_layer_reads_undefined :
  let s := undefined_key_state in
  layers s !! "layer1" = None ∧
  filterKey_of "layer1" s = KeyUndefined ∧
  stored_presets "layer1" s = Stored [preset_a] ∧
  layerPresets_of sample_default "layer1" s = Stored [preset_a; sample_default] ∧
  status_at 0 (sample_run
                 [CallInitPreset "layer1" false; Deliver 1 (Resolve VUndefined); Tick] s)
  = Fulfilled (VArray [VPreset preset_a; VPreset sample_default]).
Proof. vm_compute. done. Qed.

(** C10 at a sample input: an empty list. *)
Lemma applyDefaults_guard_is_noop_witness :
  (IsArray [] = NotArray ∨ IsArray [] = IsArray [] ∨ is_applied "layer1" init = true) ∧
  applyDefaults "layer1" (IsArray []) init = init ∧
  executed (applyDefaults "layer1" (IsArray []) init) = executed init ∧
  settings (applyDefaults "layer1" (IsArray []) init) = settings init.
Proof.
  assert (IsArray [] = NotArray ∨ IsArray [] = IsArray [] ∨ is_applied "layer1" init = true)
    as H by (right; left; reflexivity).
  split; [exact H|].
  exact (applyDefaults_guard_is_noop "layer1" (IsArray []) init H).
Defined.

(** ** The further properties at sample inputs *)

(** X1 at a sample input: the entry of "t1" survives a rejected request. *)
Lemma cache_entry_is_never_removed_witness :
  is_Some (presets_ (sample_registerPreset "t1" "u1" init).2 !! "t1") ∧
  ∃ p, presets_ (sample_run [Deliver 0 (Reject (VString "boom")); Tick]
                   (sample_registerPreset "t1" "u1" init).2) !! "t1" = Some p ∧
       ∀ opt, sample_getPresets "t1" opt
                (sample_run [Deliver 0 (Reject (VString "boom")); Tick]
                   (sample_registerPreset "t1" "u1" init).2)
              = (Gives (Future p),
                 sample_run [Deliver 0 (Reject (VString "boom")); Tick]
                   (sample_registerPreset "t1" "u1" init).2).
Proof.
  assert (is_Some (presets_ (sample_registerPreset "t1" "u1" init).2 !! "t1")) as H
    by (exists 1; vm_compute; reflexivity).
  split; [exact H|].
  exact (cache_entry_is_never_removed sample_parse sample_ToString
           sample_default sample_addDefault_fails sample_promise_answers
           "t1" [Deliver 0 (Reject (VString "boom")); Tick]
           (sample_registerPreset "t1" "u1" init).2 H).
Defined.

(** X3 at a sample input. *)
Lemma no_default_without_request_witness :
  no_default_pending init ∧
  Forall (λ e, asks_default e = false)
    [CallRegisterPreset "t1" "u1"; CallGetPresets "layer1" false;
     Deliver 3 (Resolve VUndefined); Tick] ∧
  executed (sample_run
              [CallRegisterPreset "t1" "u1"; CallGetPresets "layer1" false;
               Deliver 3 (Resolve VUndefined); Tick] init) = executed init.
Proof.
  assert (no_default_pending init) as H1 by (split; constructor).
  assert (Forall (λ e, asks_default e = false)
            [CallRegisterPreset "t1" "u1"; CallGetPresets "layer1" false;
             Deliver 3 (Resolve VUndefined); Tick]) as H2
    by (repeat constructor).
  split; [exact H1|]. split; [exact H2|].
  exact (proj1 (no_default_without_request sample_parse sample_ToString
           sample_default sample_addDefault_fails sample_promise_answers
           _ init H1 H2)).
Defined.

(** X4 at a sample input: of [a; b] the flagged preset b is applied. *)
Lemma applyDefaults_applies_first_default_witness :
  [preset_a; preset_b] ≠ [] ∧ is_applied "layer1" init = false ∧
  is_applied "layer1" (applyDefaults "layer1" (IsArray [preset_a; preset_b]) init) = true.
Proof.
  assert ([preset_a; preset_b] ≠ []) as H1 by discriminate.
  split; [exact H1|]. split; [reflexivity|].
  exact (proj1 (proj2 (applyDefaults_applies_first_default "layer1"
                         [preset_a; preset_b] init H1 eq_refl))).
Defined.

(** For the id "constructor" the lookup of line 176 finds the inherited
    member: nothing is executed and nothing is marked. *)
Example applyDefaults_inherited_id_is_noop :
  is_applied "constructor" init = true ∧
  applyDefaults "constructor" (IsArray [preset_a; preset_b]) init = init.
Proof. vm_compute. done. Qed.

(** X5 at a sample input: the first body is malformed, so "u2" is never
    requested. *)
Lemma rejected_future_blocks_request_witness :
  jobs (sample_run
          [CallRegisterPreset "t1" "u1"; Deliver 0 (Resolve (VString "{oops")); Tick;
           CallRegisterPreset "t1" "u2"] init)
    = [(MergeOuter "t1" "u2" 2, Reject (VError "Unexpected token"))] ∧
  is_requested "u2"
    (sample_tick
       (sample_run
          [CallRegisterPreset "t1" "u1"; Deliver 0 (Resolve (VString "{oops")); Tick;
           CallRegisterPreset "t1" "u2"] init)) = true.
Proof.
  assert (jobs (sample_run
            [CallRegisterPreset "t1" "u1"; Deliver 0 (Resolve (VString "{oops")); Tick;
             CallRegisterPreset "t1" "u2"] init)
          = [(MergeOuter "t1" "u2" 2, Reject (VError "Unexpected token"))]) as H
    by (vm_compute; reflexivity).
  split; [exact H|].
  exact (proj1 (proj2 (proj2 (rejected_future_blocks_request sample_parse sample_ToString
                  sample_default sample_addDefault_fails sample_promise_answers
                  _ "t1" "u2" 2 (VError "Unexpected token") [] H)))).
Defined.


(** X7 at a sample input. *)
Lemma merge_after_rejected_first_request_witness :
  "u1" ≠ "u2" ∧ sample_parse (VString "[b]") = Return (VArray [VPreset preset_b]) ∧
  status_at 4 (sample_run
                 [CallRegisterPreset "t1" "u1"; Deliver 0 (Reject (VString "boom")); Tick;
                  CallRegisterPreset "t1" "u2"; Tick;
                  Deliver 3 (Resolve (VString "[b]")); Tick] init)
    = Fulfilled (VArray [VPreset preset_b]).
Proof.
  assert ("u1" ≠ "u2") as Hne by discriminate.
  split; [exact Hne|]. split; [reflexivity|].
  exact (proj1 (proj2 (merge_after_rejected_first_request sample_parse sample_ToString
                  sample_default sample_addDefault_fails sample_promise_answers
                  "t1" "u1" "u2" (VString "boom") (VString "[b]") [VPreset preset_b]
                  (mkSettings None None 0) ∅ []
                  eq_refl eq_refl eq_refl eq_refl Hne eq_refl))).
Defined.

(** X8 at a sample input: the later body is the text "null". *)
Lemma null_body_replaces_cached_list_witness :
  "u1" ≠ "u2" ∧ sample_parse (VString "null") = Return VNull ∧ truthy VNull = false ∧
  status_at 4 (sample_run
                 [CallRegisterPreset "t1" "u1"; Deliver 0 (Resolve (VString "[a]")); Tick;
                  CallRegisterPreset "t1" "u2"; Tick;
                  Deliver 3 (Resolve (VString "null")); Tick] init)
    = Fulfilled VNull.
Proof.
  assert ("u1" ≠ "u2") as Hne by discriminate.
  split; [exact Hne|]. split; [reflexivity|]. split; [reflexivity|].
  exact (proj1 (proj2 (null_body_replaces_cached_list sample_parse sample_ToString
                  sample_default sample_addDefault_fails sample_promise_answers
                  "t1" "u1" "u2" (VString "[a]") (VString "null") [VPreset preset_a] VNull
                  (mkSettings None None 0) ∅ []
                  eq_refl eq_refl eq_refl eq_refl Hne eq_refl eq_refl eq_refl))).
Defined.

(** X9 at a sample input: the third body is the empty list. *)
Lemma last_response_wins_witness :
  ("u1" ≠ "u2" ∧ "u1" ≠ "u3" ∧ "u2" ≠ "u3") ∧
  presets_ (sample_run
              [CallRegisterPreset "t1" "u1"; CallRegisterPreset "t1" "u2";
               CallRegisterPreset "t1" "u3";
               Deliver 0 (Resolve (VString "[a]")); Tick; Tick; Tick;
               Deliver 6 (Resolve (VString "[]")); Tick;
               Deliver 4 (Resolve (VString "[b]")); Tick] init) !! "t1" = Some 5.
Proof.
  assert ("u1" ≠ "u2") as H12 by discriminate.
  assert ("u1" ≠ "u3") as H13 by discriminate.
  assert ("u2" ≠ "u3") as H23 by discriminate.
  split; [by repeat split|].
  exact (proj1 (last_response_wins sample_parse sample_ToString
                  sample_default sample_addDefault_fails sample_promise_answers
                  "t1" "u1" "u2" "u3" (VString "[a]") (VString "[b]") (VString "[]")
                  [VPreset preset_a] [VPreset preset_b] [] (mkSettings None None 0) ∅ []
                  eq_refl eq_refl eq_refl eq_refl eq_refl H12 H13 H23
                  eq_refl eq_refl eq_refl)).
Defined.




(** X14 at a sample input: the type "constructor". *)
Lemma registerPreset_inherited_type_throws_witness :
  (presets_ (sample_run [] init) !! "constructor" = None ∧
   inherited "constructor" = true ∧
   is_requested "u1" (sample_run [] init) = false) ∧
  sample_registerPreset "constructor" "u1" init =
    (Throw (VError "promise.then is not a function"),
     with_requested_ (λ m, <[ "u1" := true ]> m) init) ∧
  fetches "u1" (sample_run [CallRegisterPreset "t1" "u1"; Tick]
                  (sample_registerPreset "constructor" "u1" init).2) = 0.
Proof.
  split; [by repeat split|].
  pose proof (registerPreset_inherited_type_throws sample_parse sample_ToString
                sample_default sample_addDefault_fails sample_promise_answers
                "constructor" "u1" (mkSettings None None 0) ∅ []
                eq_refl eq_refl eq_refl) as [H1 H2].
  split; [exact H1|].
  exact (proj1 (H2 [CallRegisterPreset "t1" "u1"; Tick])).
Defined.

(** X15 at a sample input: the URL "toString". *)
Lemma inherited_url_is_never_requested_witness :
  inherited "toString" = true ∧
  fetches "toString" (sample_run [CallRegisterPreset "t1" "toString"; Tick] init) = 0 ∧
  sample_cache "t1" (sample_run [CallRegisterPreset "t1" "toString"; Tick] init) = NoEntry.
Proof.
  split; [reflexivity|].
  split; [|vm_compute; reflexivity].
  exact (proj1 (proj2 (inherited_url_is_never_requested sample_parse sample_ToString
                  sample_default sample_addDefault_fails sample_promise_answers
                  "toString" (mkSettings None None 0) ∅
                  [CallRegisterPreset "t1" "toString"; Tick] eq_refl))).
Defined.

(** X16 at a sample input: the later body is the text "7". *)
Lemma non_array_body_leaves_cache_entry_witness :
  ("u1" ≠ "u2" ∧ sample_parse (VString "7") = Return (VNumber 7) ∧
   truthy (VNumber 7) = true ∧ has_concat (VNumber 7) = false) ∧
  let s := sample_run
             [CallRegisterPreset "t1" "u1"; Deliver 0 (Resolve (VString "[a]")); Tick;
              CallRegisterPreset "t1" "u2"; Tick;
              Deliver 3 (Resolve (VString "7")); Tick] init in
  presets_ s !! "t1" = Some 1 ∧
  status_at 1 s = Fulfilled (VArray [VPreset preset_a]) ∧
  status_at 4 s = Rejected (VError "presets.concat is not a function") ∧
  logged s = [].
Proof.
  assert ("u1" ≠ "u2") as Hne by discriminate.
  split; [by repeat split|].
  exact (non_array_body_leaves_cache_entry sample_parse sample_ToString
           sample_default sample_addDefault_fails sample_promise_answers
           "t1" "u1" "u2" (VString "[a]") (VString "7") [VPreset preset_a] (VNumber 7)
           (mkSettings None None 0) ∅ []
           eq_refl eq_refl eq_refl eq_refl Hne eq_refl eq_refl eq_refl eq_refl).
Defined.

(** X17 at a sample input: the id "hasOwnProperty". *)
Lemma getPresets_inherited_id_returns_member_witness :
  (presets_ init !! "hasOwnProperty" = None ∧ inherited "hasOwnProperty" = true) ∧
  sample_getPresets "hasOwnProperty" false init = (Gives (Member "hasOwnProperty"), init).
Proof.
  split; [by split|].
  exact (proj1 (getPresets_inherited_id_returns_member
           sample_default sample_addDefault_fails sample_promise_answers
           "hasOwnProperty" false init eq_refl eq_refl)).
Defined.

(** ** Filter keys that Object.prototype answers *)

(** A layer whose filter key is "toString", with nothing stored under it:
    line 141 finds the inherited function, whose length is 0, so addDefault
    is not called; the future is fulfilled with that function, and
    applyDefaults, handed something that is no array, does nothing. *)
Example initPreset_filter_key_toString :
  let s0 := fresh (mkSettings None None 0) {["layer1" := mkLayer true (Some "toString")]} in
  let s := sample_run [CallGetPresets "layer1" true; Deliver 1 (Resolve VUndefined); Tick]
             s0 in
  stored_presets "layer1" s0 = Inherited "toString" ∧
  has_length (Inherited "toString") = false ∧
  status_at 0 s = Fulfilled (VMember "toString") ∧
  executed s = [] ∧ settings s = settings s0.
Proof. vm_compute. done. Qed.

(** With the filter key "constructor" the inherited function has length 1, so
    line 146 hands it to addDefault; when that throws, initPreset and
    getPresets throw with it, and nothing is stored. *)
Example initPreset_filter_key_constructor :
  let s0 := fresh (mkSettings None None 0)
              {["layer1" := mkLayer true (Some "constructor")]} in
  stored_presets "layer1" s0 = Inherited "constructor" ∧
  has_length (Inherited "constructor") = true ∧
  sample_getPresets "layer1" true s0
    = (Raises (VError "presets.push is not a function"), s0).
Proof. vm_compute. done. Qed.
